(** * A shallow embedding of [Experiment.py] (constrained bandit exploration)

    Floating-point numbers are modelled by exact arithmetic: [Q] where the
    code is pure linear algebra and comparisons (so that definitions run
    under [vm_compute]), and [R] where the code uses [log] and [sqrt].
    Calls into numpy's linear algebra and scipy's optimisers are external to
    the repository; they are taken as parameters (Section [Variable]s) with,
    where a proof needs one, the contract the library documents. *)

From Stdlib Require Import List Arith Lia Bool QArith Qabs Reals Lra.
From Stdlib Require Lqa.
Import ListNotations.

(** ** Python exceptions and a small error monad *)

Inductive exn :=
| TypeError
| ValueError
| IndexError
| KeyError
| UnboundLocalError.

Inductive result (A : Type) :=
| Ok (a : A)
| Err (e : exn).
Arguments Ok {A} a.
Arguments Err {A} e.

Definition bind {A B} (r : result A) (f : A -> result B) : result B :=
  match r with
  | Ok a => f a
  | Err e => Err e
  end.

Notation "x <- r ;; k" := (bind r (fun x => k))
  (at level 61, r at next level, right associativity).

(** ** Vectors and matrices over [Q] (numpy arrays, exact arithmetic) *)

Section QLinAlg.
Local Open Scope Q_scope.

Definition dotQ (x y : list Q) : Q :=
  fold_right Qplus 0 (map (fun '(a, c) => a * c) (combine x y)).

Definition matvecQ (A : list (list Q)) (x : list Q) : list Q :=
  map (fun row => dotQ row x) A.

Definition sumQ (x : list Q) : Q := fold_right Qplus 0 x.

(** [np.all(Ax <= b + tol)] *)
Definition all_le_tol (tol : Q) (Ax b : list Q) : bool :=
  forallb (fun '(a, c) => Qle_bool a (c + tol)) (combine Ax b).

(** [np.allclose(a, c)] with numpy's defaults [rtol = 1e-5], [atol = 1e-8]:
    [|a - c| <= atol + rtol * |c|] elementwise. *)
Definition allclose (a c : list Q) : bool :=
  forallb (fun '(x, y) => Qle_bool (Qabs (x - y)) ((1 # 100000000) + (1 # 100000) * Qabs y))
    (combine a c).

(** [arreqclose_in_list(myarr, list_arrays)] *)
Definition arreqclose_in_list (myarr : list Q) (list_arrays : list (list Q)) : bool :=
  existsb (fun elem => (length elem =? length myarr)%nat && allclose elem myarr) list_arrays.

End QLinAlg.

(** [itertools.combinations(l, k)], in its lexicographic order. *)
Fixpoint combinations {A} (k : nat) (l : list A) : list (list A) :=
  match k with
  | O => [[]]
  | S k' =>
      match l with
      | [] => []
      | x :: xs => map (cons x) (combinations k' xs) ++ combinations k xs
      end
  end.

(** [new_base[i] = constraint] on a numpy index array. *)
Fixpoint set_nth {A} (l : list A) (i : nat) (v : A) : list A :=
  match l, i with
  | [], _ => []
  | _ :: xs, O => v :: xs
  | x :: xs, S i' => x :: set_nth xs i' v
  end.

(** ** [compute_neighbors] *)

Section Neighbors.
Local Open Scope Q_scope.

(** numpy's [np.linalg.matrix_rank] and [np.linalg.solve]. *)
Variable matrix_rank : list (list Q) -> nat.
Variable solve : list (list Q) -> list Q -> list Q.

(** [active = slack == 0]: the boolean mask, exact comparison with 0. *)
Definition active_mask (slack : list Q) : list bool :=
  map (fun s => Qeq_bool s 0) slack.

(** [n_constraints[active].tolist()] *)
Definition active_constraints (A : list (list Q)) (slack : list Q) : list nat :=
  filter (fun c => nth c (active_mask slack) false) (seq 0 (length A)).

(** [n_constraints[not_active].tolist()] with [not_active = slack != 0] *)
Definition inactive_constraints (A : list (list Q)) (slack : list Q) : list nat :=
  filter (fun c => negb (nth c (active_mask slack) false)) (seq 0 (length A)).

(** [A[new_base]] and [b[new_base]] *)
Definition rows (A : list (list Q)) (idx : list nat) : list (list Q) :=
  map (fun r => nth r A []) idx.
Definition entries (b : list Q) (idx : list nat) : list Q :=
  map (fun r => nth r b 0) idx.

(** The body of the innermost loop: one swapped basis. *)
Definition try_swap (vertex : list Q) (A : list (list Q)) (b : list Q)
    (base : list nat) (constraint : nat) (neighbors : list (list Q)) (i : nat)
    : list (list Q) :=
  let new_base := set_nth base i constraint in
  let B := rows A new_base in
  if (matrix_rank B =? length vertex)%nat then
    let possible_neighbor := solve B (entries b new_base) in
    if all_le_tol (1 # 100000) (matvecQ A possible_neighbor) b
       && negb (arreqclose_in_list possible_neighbor neighbors)
    then neighbors ++ [possible_neighbor]
    else neighbors
  else neighbors.

(** Boolean mask indexing raises [IndexError] when the mask and the indexed
    array differ in length. *)
Definition compute_neighbors (vertex : list Q) (A : list (list Q)) (b : list Q)
    (slack : list Q) : result (list (list Q)) :=
  if negb (length slack =? length A)%nat then Err IndexError else
  let bases := combinations (length vertex) (active_constraints A slack) in
  Ok (fold_left (fun neighbors base =>
        fold_left (fun neighbors constraint =>
          fold_left (try_swap vertex A b base constraint)
            (seq 0 (length base)) neighbors)
          (inactive_constraints A slack) neighbors)
        bases []).

End Neighbors.

(** A concrete instance of the linear-algebra parameters for 2 x 2 systems
    (Cramer's rule), used to run [compute_neighbors] on small polytopes. *)
Definition rank2 (B : list (list Q)) : nat :=
  match B with
  | [] => 0
  | [[a; c]; [d; e]] => if Qeq_bool (a * e - c * d) 0 then 1 else 2
  | _ => S (length B)
  end.

Definition solve2 (B : list (list Q)) (y : list Q) : list Q :=
  match B, y with
  | [[a; c]; [d; e]], [y1; y2] =>
      let det := a * e - c * d in
      [(y1 * e - c * y2) / det; (a * y2 - y1 * d) / det]
  | _, _ => []
  end.

(** The stacked system [get_policy] builds for two arms without side
    constraints: [-x1 <= 0], [-x2 <= 0], [x1 + x2 <= 1], [-x1 - x2 <= -1]. *)
Definition simplex2_A : list (list Q) := [[-1; 0]; [0; -1]; [1; 1]; [-1; -1]]%Q.
Definition simplex2_b : list Q := [0; 0; 1; -1]%Q.

(** ** [binary_search] and [get_confidence_interval] *)

Section ConfidenceInterval.
Local Open Scope Q_scope.

(** The [while not done] loop of [binary_search] on the index pair [(p, q)];
    [below i] is [kl(mu, interval[i]) < threshold].  The loop body runs at
    least once and the result is the index [i] probed last.  Every pass with
    [p < q] shrinks [q - p], so [length interval] passes always suffice; the
    fuel only makes the recursion structural. *)
Fixpoint bisect (below : nat -> bool) (fuel p q : nat) : nat :=
  let i := ((p + q) / 2)%nat in
  let '(p', q') := if below i then (i, q) else (p, i) in
  if (q' <=? p' + 1)%nat then i
  else match fuel with
       | O => i
       | S fuel' => bisect below fuel' p' q'
       end.

(** A float threshold: [f_t / n] is a finite number, or, for [n = 0], the
    numpy quotient [inf] ([f_t > 0]), [-inf] ([f_t < 0]) or [nan] ([f_t = 0]). *)
Inductive threshold_value : Type :=
| Finite (q : Q)
| PosInf
| NegInf
| NaN.

(** [loss < threshold] on floats: every finite loss is below [inf], none is
    below [-inf], and every comparison with [nan] is false. *)
Definition lt_threshold (loss : Q) (t : threshold_value) : bool :=
  match t with
  | Finite q => negb (Qle_bool q loss)
  | PosInf => true
  | NegInf | NaN => false
  end.

(** [f_t / n] on numpy floats ([n_pulls] is a float array). *)
Definition np_divide (f n : Q) : threshold_value :=
  if Qeq_bool n 0 then
    if negb (Qle_bool f 0) then PosInf
    else if negb (Qle_bool 0 f) then NegInf
    else NaN
  else Finite (f / n).

Definition binary_search_float (mu : Q) (interval : list Q) (threshold : threshold_value)
    (kl : Q -> Q -> Q) : Q * Q :=
  let below i := lt_threshold (kl mu (nth i interval 0)) threshold in
  let i := bisect below (length interval) 0 (length interval) in
  let x := nth i interval 0 in
  (x, kl mu x).

(** [binary_search] with a finite threshold. *)
Definition binary_search (mu : Q) (interval : list Q) (threshold : Q) (kl : Q -> Q -> Q) : Q * Q :=
  binary_search_float mu interval (Finite threshold) kl.

(** [np.linspace(start, stop, num)]: [start + i * step] with
    [step = (stop - start) / (num - 1)], the last point being [stop] itself. *)
Definition linspace (start stop : Q) (num : nat) : list Q :=
  let step := (stop - start) / inject_Z (Z.of_nat (num - 1)) in
  map (fun i => if (i =? num - 1)%nat then stop else start + inject_Z (Z.of_nat i) * step)
    (seq 0 num).

(** The default [kl = lambda m1, m2: ((m1 - m2) ** 2) / 2]. *)
Definition kl_default (m1 m2 : Q) : Q := (m1 - m2) ^ 2 / 2.

Definition get_confidence_interval (mu pulls : list Q) (f_t upper lower : Q)
    (kl : option (Q -> Q -> Q)) : list Q * list Q :=
  let kl := match kl with Some k => k | None => kl_default end in
  let ub := map (fun '(m, n) => fst (binary_search_float m (linspace m upper 5000) (np_divide f_t n) kl))
              (combine mu pulls) in
  let lb := map (fun '(m, n) => fst (binary_search_float m (linspace m lower 5000) (np_divide f_t n) kl))
              (combine mu pulls) in
  (lb, ub).

End ConfidenceInterval.

(** ** [project_on_feasible] *)

Section Projection.
Local Open Scope Q_scope.

(** [np.eye(n)] *)
Definition eye (n : nat) : list (list Q) :=
  map (fun i => map (fun j => if (i =? j)%nat then 1 else 0) (seq 0 n)) (seq 0 n).

Definition neg_rows (A : list (list Q)) : list (list Q) := map (map Qopp) A.

(** The stacked system [A; eye; -eye; simplex; -simplex] and its right-hand
    side [b; ones; zeros; 1; -1] ([A is None]: the same without [A], [b]). *)
Definition stacked_system (n : nat) (A : option (list (list Q))) (b : list Q)
    : list (list Q) * list Q :=
  let simplex := repeat 1 n in
  let box := eye n ++ neg_rows (eye n) ++ [simplex] ++ [map Qopp simplex] in
  let rhs := repeat 1 n ++ repeat 0 n ++ [1] ++ [-1] in
  match A with
  | Some A => (A ++ box, b ++ rhs)
  | None => (box, rhs)
  end.

(** scipy's [minimize(fun, x0, args=(allocation), constraints=LinearConstraint(A, ub=b))]
    for [fun(x, y) = ||x - y||^2]: the point where its iterations stopped,
    [None] when it raises [ValueError]. *)
Variable minimize_proj : list Q -> list Q -> list (list Q) -> list Q -> option (list Q).

(** [raise "Allocation doesnt sum to 1"] raises a [str], which Python 3
    turns into a [TypeError]; after a caught [ValueError] the name [x] is
    unbound. *)
Definition project_on_feasible (allocation : list Q) (A : option (list (list Q))) (b : list Q)
    : result (list Q) :=
  let n := length allocation in
  let '(A', b') := stacked_system n A b in
  let x0 := repeat (1 / inject_Z (Z.of_nat n)) n in
  match minimize_proj x0 allocation A' b' with
  | None => Err UnboundLocalError
  | Some x =>
      if negb (Qle_bool (Qabs (sumQ x - 1)) (1 # 100000)) then Err TypeError
      else Ok x
  end.

End Projection.

(** ** [solve_game] *)

Record opt_result := { res_x : list Q; res_fun : Q; res_success : bool }.

(** The feasible set of the allocation: the simplex ([allocation_A is None])
    or [{w : allocation_A w <= allocation_b}]. *)
Inductive alloc_domain :=
| OnSimplex
| OnPolytope (A : list (list Q)) (b : list Q).

Section Game.
Local Open Scope Q_scope.

Variable minimize_proj : list Q -> list Q -> list (list Q) -> list Q -> option (list Q).
(** scipy's [minimize(game_objective, x0, constraints, bounds, tol)], where
    [game_objective] is the negated best response for the fixed
    [(mu, vertex, neighbors, l0, A, b, sigma, dist_type)]. *)
Variable minimize_game : option Q -> list Q -> alloc_domain -> opt_result.
(** The [k]-th draw [np.random.uniform(0.3, 0.6, size=len(mu))] of the loop. *)
Variable uniform_draw : nat -> list Q.

Definition tol_ladder (tol : option Q) : list (option Q) :=
  let tol_sweep := [Some (1 # 10000000000000000); Some (1 # 1000000000000);
                    Some (1 # 1000000); Some (1 # 10000)] in
  match tol with
  | Some t => if negb (Qle_bool t (1 # 10000000000000000)) then Some t :: tol_sweep
              else None :: tol_sweep
  | None => None :: tol_sweep
  end.

(** The fresh starting point of rung [count]. *)
Definition start_point (dom : alloc_domain) (count : nat) : result (list Q) :=
  let x0 := uniform_draw count in
  match dom with
  | OnSimplex => Ok (map (fun v => v / sumQ x0) x0)
  | OnPolytope A b => project_on_feasible minimize_proj x0 (Some A) b
  end.

(** [while count < len(tol_sweep) and not done]; the result is the last
    [res] ([None]: the loop never ran and [res] is unbound). *)
Fixpoint sweep_loop (dom : alloc_domain) (count : nat) (sweep : list (option Q))
    (last : option opt_result) : result (option opt_result) :=
  match sweep with
  | [] => Ok last
  | tol :: rest =>
      x0 <- start_point dom count ;;
      let res := minimize_game tol x0 dom in
      if res_success res then Ok (Some res)
      else sweep_loop dom (S count) rest (Some res)
  end.

(** [if res["success"] == True: return res.x, -res.fun]; otherwise the
    function falls off its end and returns [None]. *)
Definition solve_game (dom : alloc_domain) (tol : option Q) (x0 : option (list Q))
    : result (option (list Q * Q)) :=
  r <- match x0 with
       | None => sweep_loop dom 0 (tol_ladder tol) None
       | Some x0 => Ok (Some (minimize_game tol x0 dom))
       end ;;
  match r with
  | None => Err UnboundLocalError
  | Some res => if res_success res then Ok (Some (res_x res, - res_fun res)) else Ok None
  end.

(** The reading "first rung whose optimiser succeeds, else no result". *)
Fixpoint first_success (dom : alloc_domain) (count : nat) (sweep : list (option Q))
    : result (option (list Q * Q)) :=
  match sweep with
  | [] => Ok None
  | tol :: rest =>
      x0 <- start_point dom count ;;
      let res := minimize_game tol x0 dom in
      if res_success res then Ok (Some (res_x res, - res_fun res))
      else first_success dom (S count) rest
  end.

End Game.

(** ** Vectors over [R] and non-finite floats

    [None] stands for a non-finite float (numpy's [nan] or [inf], produced
    by a division by zero or the logarithm of a non-positive number); the
    model does not follow such a value further.  Element-wise operations
    are applied to arrays of the same length, as in every call of the code. *)

Section RVec.
Local Open Scope R_scope.

Definition vmap2 {B} (f : R -> R -> B) (x y : list R) : list B :=
  map (fun '(a, c) => f a c) (combine x y).

Definition dotR (x y : list R) : R := fold_right Rplus 0 (vmap2 Rmult x y).

Definition sumR (x : list R) : R := fold_right Rplus 0 x.

Definition matvecR (A : list (list R)) (x : list R) : list R := map (fun row => dotR row x) A.

Definition odiv (x y : R) : option R := if Req_EM_T y 0 then None else Some (x / y).

Definition obind {A B} (o : option A) (f : A -> option B) : option B :=
  match o with Some a => f a | None => None end.

Fixpoint osequence (l : list (option R)) : option (list R) :=
  match l with
  | [] => Some []
  | o :: r => obind o (fun a => obind (osequence r) (fun s => Some (a :: s)))
  end.

(** [np.min]: a [ValueError] on an empty array. *)
Definition np_min (x : list R) : result R :=
  match x with
  | [] => Err ValueError
  | a :: r => Ok (fold_left Rmin r a)
  end.

Definition np_log (x : R) : option R := if Rlt_dec 0 x then Some (ln x) else None.

Definition np_sqrt (x : R) : option R := if Rle_dec 0 x then Some (sqrt x) else None.

End RVec.

Notation "x <-? o ;; k" := (obind o (fun x => k))
  (at level 61, o at next level, right associativity).

(** ** Gaussian projections *)

Section GaussianProjection.
Local Open Scope R_scope.

Definition PRECISION : R := / 10 ^ 12.

(** [gaussian_projection_lb]: [lagrange = mu.dot(v) / normalizer]. *)
Definition gaussian_projection_lb (w mu pi1 pi2 : list R) (sigma : R) : option (list R * R) :=
  let v := vmap2 Rminus pi1 pi2 in
  let wP := map (fun a => a + PRECISION) w in
  q <-? osequence (vmap2 (fun a c => odiv (a ^ 2) c) v wP) ;;
  let normalizer := sumR q in
  lagrange <-? odiv (dotR mu v) normalizer ;;
  lv <-? osequence (vmap2 (fun a c => odiv (lagrange * a) c) v wP) ;;
  let lam := vmap2 Rminus mu lv in
  let var := sigma ^ 2 in
  value <-? odiv (sumR (vmap2 (fun a d => a * d ^ 2) w (vmap2 Rminus mu lam))) (2 * var) ;;
  Some (lam, value).

(** scipy's [minimize(objective_for_l, x0=l0, constraints=const, bounds=bound)]
    with [const: 0 <= sum(x) <= ub] ([None]: a non-finite [ub]) and
    [bound: x >= 0]. *)
Variable minimize_l : (list R -> R) -> list R -> option R -> list R.

(** [gaussian_projection]: [lagrange = mu.dot(v) / (normalizer + PRECISION)];
    returns [(lam, objective_for_l(res.x), res.x)]. *)
Definition gaussian_projection (w mu pi1 pi2 l0 : list R) (A : list (list R)) (b : list R)
    (sigma : R) : result (option (list R * R * list R)) :=
  let v := vmap2 Rminus pi1 pi2 in
  let wP := map (fun a => a + PRECISION) w in
  let lamval :=
    q <-? osequence (vmap2 (fun a c => odiv (a ^ 2) c) v wP) ;;
    let normalizer := sumR q in
    lagrange <-? odiv (dotR mu v) (normalizer + PRECISION) ;;
    lv <-? osequence (vmap2 (fun a c => odiv (lagrange * a) c) v wP) ;;
    let lam := vmap2 Rminus mu lv in
    let var := sigma ^ 2 in
    value <-? odiv (sumR (vmap2 (fun a d => a * d ^ 2) w (vmap2 Rminus mu lam))) (2 * var) ;;
    Some (lam, value) in
  let gamma := vmap2 Rminus (matvecR A w) b in
  gmin <- np_min gamma ;;
  match lamval with
  | None => Ok None
  | Some (lam, value) =>
      let objective_for_l x := value + dotR x (vmap2 Rminus b (matvecR A w)) in
      let ub := odiv value (gmin + PRECISION) in
      let x := minimize_l objective_for_l l0 ub in
      Ok (Some (lam, objective_for_l x, x))
  end.

(** A Python call of [gaussian_projection(w, mu, pi1, pi2, l0, A, b, sigma=1)]
    with positional arguments: fewer than seven or more than eight raise
    [TypeError] before the body runs. *)
Inductive pyarg :=
| PyVec (x : list R)
| PyMat (A : list (list R))
| PyNum (r : R).

Definition call_gaussian_projection (args : list pyarg)
    : result (option (list R * R * list R)) :=
  if ((length args <? 7) || (8 <? length args))%nat then Err TypeError
  else match args with
       | [PyVec w; PyVec mu; PyVec pi1; PyVec pi2; PyVec l0; PyMat A; PyVec b] =>
           gaussian_projection w mu pi1 pi2 l0 A b 1
       | [PyVec w; PyVec mu; PyVec pi1; PyVec pi2; PyVec l0; PyMat A; PyVec b; PyNum sigma] =>
           gaussian_projection w mu pi1 pi2 l0 A b sigma
       | _ => Ok None (* arguments of other types: no result is modelled *)
       end.

(** scipy's [minimize(objective, x0, constraints=constraint, bounds=bounds)]
    for the Bernoulli projection. *)
Variable minimize_b : (list R -> R) -> list R -> list R -> list R.

Definition clip (lo hi x : R) : R := Rmin hi (Rmax lo x).

(** [bernoulli_projection(w, mu, pi1, pi2, sigma=1)]. *)
Definition bernoulli_projection (w mu pi1 pi2 : list R) (sigma : R)
    : result (option (list R * R)) :=
  let mu := map (clip (/ 1000) (1 - / 1000)) mu in
  let v := vmap2 Rminus pi1 pi2 in
  let objective lam :=
    sumR (vmap2 Rmult w
      (vmap2 (fun m l => m * ln (m / l) + (1 - m) * ln ((1 - m) / (1 - l))) mu lam)) in
  g <- call_gaussian_projection [PyVec w; PyVec mu; PyVec pi1; PyVec pi2; PyNum sigma] ;;
  match g with
  | None => Ok None
  | Some (lam0, _, _) =>
      let x0 := map (clip (/ 1000) (1 - / 1000)) lam0 in
      let lam := minimize_b objective x0 v in
      Ok (Some (lam, objective lam))
  end.

End GaussianProjection.

(** ** The Explorer's stopping test *)

Module Explorer.

(** The fields of [Explorer] that the stopping test reads; [neighbors] is
    the dictionary from [tuple(vertex)] to the vertex's neighbours. *)
Record state := {
  t : nat;
  n_pulls : list R;
  means : list R;
  constraints : list (list R);
  b : list R;
  delta : R;
  l0 : list R;
  sigma : R;
  neighbors : list (list R * list (list R))
}.

(** [self.neighbors[hash_tuple]]: [KeyError] for a vertex never seen. *)
Fixpoint lookup (key : list R) (d : list (list R * list (list R))) : result (list (list R)) :=
  match d with
  | [] => Err KeyError
  | (k, ns) :: r => if list_eq_dec Req_EM_T k key then Ok ns else lookup key r
  end.

(** [self.n_pulls / self.t] (the round count is positive in every adaptive
    round). *)
Definition empirical_allocation (st : state) : list R :=
  map (fun n => (n / INR (t st))%R) (n_pulls st).

Section Stopping.
Local Open Scope R_scope.

(** [best_response(w, mu, pi, neighbors, l0, A, b, sigma, dist_type)]:
    [(value, instance, multipliers)]. *)
Variable best_response :
  list R -> list R -> list R -> list (list R) -> list R -> list (list R) -> list R -> R ->
  R * list R * list R.

(** [stopping_criterion(vertex, arm, f_t, w_t_norm)]; a comparison with a
    non-finite [beta] or [sqrt] is [False]. *)
Definition stopping_criterion (st : state) (vertex : list R) (arm : nat) (f_t w_t_norm : R)
    : result bool :=
  ns <- lookup vertex (neighbors st) ;;
  let '(game_value, _, best_l) :=
    best_response (empirical_allocation st) (means st) vertex ns (l0 st)
      (constraints st) (b st) (sigma st) in
  let beta := (lt <-? np_log (INR (t st)) ;; np_log ((1 + lt) * 2 / delta st)) in
  match beta, np_sqrt w_t_norm with
  | Some beta, Some s =>
      let shrunk := map (map (fun a => a - f_t * s)) (constraints st) in
      Ok (if Rlt_dec (beta + sumR best_l * (f_t * s + 1))
                     (INR (t st) * game_value + dotR best_l (vmap2 Rminus (b st) (matvecR shrunk vertex)))
          then true else false)
  | _, _ => Ok false
  end.

End Stopping.

End Explorer.

(** ** The experiment loop [run_exploration_experiment] *)

Module Harness.

Section Loop.

(** A recommended policy. *)
Variable Policy : Type.

(** The [(arm, done, policy)] triple of a round. *)
Definition decision : Type := (nat * bool * option Policy)%type.

Variables n_arms ini_phase : nat.

(** Round [t]'s outcome of [get_policy] ([Some x] when
    [results["success"]]) and the arm and stop flag of the adaptive branch:
    any run of the explorer fixes them as functions of the round. *)
Variable lp_solve : nat -> option Policy.
Variable adaptive_step : nat -> Policy -> nat * bool.

(** [CGE.act]; [None] is the [None] the method falls through to when the
    LP fails. *)
Definition act (t : nat) : option decision :=
  if (t <? n_arms * ini_phase)%nat then Some (t mod n_arms, false, None)
  else match lp_solve t with
       | None => None
       | Some x => let '(arm, stop) := adaptive_step t x in Some (arm, stop, Some x)
       end.

Fixpoint last_opt {A} (l : list A) : option A :=
  match l with
  | [] => None
  | [a] => Some a
  | _ :: r => last_opt r
  end.

(** The body of [while not done]: unpacking [None] raises [TypeError], which
    is caught and answered by [policy_list[-1]] etc. ([IndexError] on empty
    lists); [explorer.update] then advances the round.  [log] holds the
    appended triples; the result is the sequence of decisions of the rounds. *)
Fixpoint loop (fuel t : nat) (log : list decision) : result (list decision) :=
  match fuel with
  | O => Ok []
  | S fuel' =>
      let outcome := act t in
      d <- match outcome with
           | Some d => Ok d
           | None => match last_opt log with Some d => Ok d | None => Err IndexError end
           end ;;
      let log' := match outcome with Some d => log ++ [d] | None => log end in
      let '(_, done, _) := d in
      if done then Ok [d]
      else rest <- loop fuel' (S t) log' ;; Ok (d :: rest)
  end.

Definition run_exploration_experiment : result (list decision) := loop (10 ^ 5) 0 [].

End Loop.

End Harness.

(** ** [enumerate_all_policies] *)

Section Enumerate.
Local Open Scope Q_scope.

Variable matrix_rank : list (list Q) -> nat.
Variable solve : list (list Q) -> list Q -> list Q.

(** [A.shape[1]]: the length of a row (the number of arms).  A list of
    rows does not record the column count of a matrix without rows, and
    [b] is read, as in [compute_neighbors], with one entry per row of [A]. *)
Definition shape1 (A : list (list Q)) : nat :=
  match A with
  | [] => O
  | row :: _ => length row
  end.

(** The body of [for base in bases]. *)
Definition enumerate_step (A : list (list Q)) (b : list Q) (policies : list (list Q))
    (base : list nat) : list (list Q) :=
  let B := rows A base in
  if (matrix_rank B =? shape1 A)%nat then
    let policy := solve B (entries b base) in
    if all_le_tol (1 # 100000) (matvecQ A policy) b
       && negb (arreqclose_in_list policy policies)
    then policies ++ [policy]
    else policies
  else policies.

Definition enumerate_all_policies (A : list (list Q)) (b : list Q) : list (list Q) :=
  fold_left (enumerate_step A b) (combinations (shape1 A) (seq 0 (length A))) [].

End Enumerate.

(** ** [get_policy] *)

Section GetPolicy.
Local Open Scope Q_scope.

(** The fields of scipy's [linprog] result that the code reads. *)
Record lp_result := { lp_x : list Q; lp_slack : list Q; lp_success : bool }.

(** The stacked system [A; -eye; simplex; -simplex] and its right-hand side
    [b; zeros; 1; -1] ([A is None]: the same without [A], [b]). *)
Definition get_policy_system (n : nat) (A : option (list (list Q))) (b : list Q)
    : list (list Q) * list Q :=
  let simplex := repeat 1 n in
  let box := neg_rows (eye n) ++ [simplex] ++ [map Qopp simplex] in
  let rhs := repeat 0 n ++ [1] ++ [-1] in
  match A with
  | Some A => (A ++ box, b ++ rhs)
  | None => (box, rhs)
  end.

(** scipy's [linprog(c, A_ub, b_ub, method="highs-ds")]; [None] when it
    raises [ValueError]. *)
Variable linprog : list Q -> list (list Q) -> list Q -> option lp_result.

(** [get_policy(mu, A, b)]: [(results, aux)] with [aux = (A, b, slack)] for
    the stacked system; after a caught [ValueError] the name [results] is
    unbound. *)
Definition get_policy (mu : list Q) (A : option (list (list Q))) (b : list Q)
    : result (lp_result * (list (list Q) * list Q * list Q)) :=
  let '(A', b') := get_policy_system (length mu) A b in
  match linprog (map Qopp mu) A' b' with
  | None => Err UnboundLocalError
  | Some results => Ok (results, (A', b', lp_slack results))
  end.

End GetPolicy.

(** ** [solve_game_lb] *)

Section GameLB.
Local Open Scope Q_scope.

Variable minimize_proj : list Q -> list Q -> list (list Q) -> list Q -> option (list Q).
(** scipy's [minimize] on [game_objective], here the negated
    [best_response_lb]. *)
Variable minimize_game : option Q -> list Q -> alloc_domain -> opt_result.
Variable uniform_draw : nat -> list Q.

(** The same ladder as [solve_game]; a final failure raises
    [ValueError("Optimization failed")]. *)
Definition solve_game_lb (dom : alloc_domain) (tol : option Q) (x0 : option (list Q))
    : result (list Q * Q) :=
  r <- match x0 with
       | None => sweep_loop minimize_proj minimize_game uniform_draw dom 0 (tol_ladder tol) None
       | Some x0 => Ok (Some (minimize_game tol x0 dom))
       end ;;
  match r with
  | None => Err UnboundLocalError
  | Some res => if res_success res then Ok (res_x res, - res_fun res) else Err ValueError
  end.

End GameLB.

(** ** [best_response] and [best_response_lb] *)

(** The [dist_type] strings the code accepts; any other raises
    [NotImplementedError] (not modelled). *)
Inductive dist_type :=
| Gaussian
| Bernoulli.

Section BestResponse.
Local Open Scope R_scope.

(** A list comprehension whose elements may raise: the first error
    propagates. *)
Fixpoint rsequence {A} (l : list (result A)) : result (list A) :=
  match l with
  | [] => Ok []
  | r :: rs => a <- r ;; s <- rsequence rs ;; Ok (a :: s)
  end.

(** All entries finite ([None] as soon as one of them is not). *)
Fixpoint ofinite {A} (l : list (option A)) : option (list A) :=
  match l with
  | [] => Some []
  | o :: r => obind o (fun a => obind (ofinite r) (fun s => Some (a :: s)))
  end.

(** [np.argmin]: the first index of the minimum, [ValueError] on an empty
    array. *)
Fixpoint argmin_from (x : list R) (k best : nat) (m : R) : nat :=
  match x with
  | [] => best
  | a :: r => if Rlt_dec a m then argmin_from r (S k) k a else argmin_from r (S k) best m
  end.

Definition np_argmin (x : list R) : result nat :=
  match x with
  | [] => Err ValueError
  | a :: r => Ok (argmin_from r 1 0 a)
  end.

(** [np.min(values), instances[np.argmin(values)], ls[np.argmin(values)]];
    a non-finite value makes the minimum non-finite. *)
Definition select3 (projections : list (option (list R * R * list R)))
    : result (option (R * list R * list R)) :=
  match ofinite projections with
  | None => Ok None
  | Some ps =>
      let values := map (fun '(_, v, _) => v) ps in
      let instances := map (fun '(lam, _, _) => lam) ps in
      let ls := map (fun '(_, _, l) => l) ps in
      v <- np_min values ;;
      k <- np_argmin values ;;
      Ok (Some (v, nth k instances [], nth k ls []))
  end.

(** [np.min(values), instances[np.argmin(values)]] *)
Definition select2 (projections : list (option (list R * R))) : result (option (R * list R)) :=
  match ofinite projections with
  | None => Ok None
  | Some ps =>
      let values := map snd ps in
      let instances := map fst ps in
      v <- np_min values ;;
      k <- np_argmin values ;;
      Ok (Some (v, nth k instances []))
  end.

Variable minimize_l : (list R -> R) -> list R -> option R -> list R.
Variable minimize_b : (list R -> R) -> list R -> list R -> list R.

(** [best_response(w, mu, pi, neighbors, l0, A, b, sigma, dist_type)]; in
    the Bernoulli branch the projections are pairs, so [p[2]] raises
    [IndexError] (and [np.min] of no values raises [ValueError]). *)
Definition best_response (w mu pi : list R) (neighbors : list (list R)) (l0 : list R)
    (A : list (list R)) (b : list R) (sigma : R) (dist : dist_type)
    : result (option (R * list R * list R)) :=
  match dist with
  | Gaussian =>
      projections <- rsequence (map (fun neighbor =>
                       gaussian_projection minimize_l w mu pi neighbor l0 A b sigma) neighbors) ;;
      select3 projections
  | Bernoulli =>
      projections <- rsequence (map (fun neighbor =>
                       bernoulli_projection minimize_l minimize_b w mu pi neighbor sigma) neighbors) ;;
      match projections with
      | [] => Err ValueError
      | _ :: _ => Err IndexError
      end
  end.

(** [best_response_lb(w, mu, pi, neighbors, sigma, dist_type)] *)
Definition best_response_lb (w mu pi : list R) (neighbors : list (list R)) (sigma : R)
    (dist : dist_type) : result (option (R * list R)) :=
  match dist with
  | Gaussian =>
      select2 (map (fun neighbor => gaussian_projection_lb w mu pi neighbor sigma) neighbors)
  | Bernoulli =>
      projections <- rsequence (map (fun neighbor =>
                       bernoulli_projection minimize_l minimize_b w mu pi neighbor sigma) neighbors) ;;
      select2 projections
  end.

End BestResponse.

(** ** [Explorer.update] and [Explorer.tracking] *)

Module ExplorerUpdate.

Section Update.
Local Open Scope R_scope.

(** [np.eye(n)] over [R]. *)
Definition eyeR (n : nat) : list (list R) :=
  map (fun i => map (fun j => if (i =? j)%nat then 1 else 0) (seq 0 n)) (seq 0 n).

(** [M.T[j]]: [IndexError] when a row is too short. *)
Definition column (M : list (list R)) (j : nat) : result (list R) :=
  rsequence (map (fun row => match nth_error row j with Some a => Ok a | None => Err IndexError end) M).

(** [M.T[j] = c] *)
Definition set_column (M : list (list R)) (j : nat) (c : list R) : list (list R) :=
  map (fun '(row, a) => set_nth row j a) (combine M c).

(** Broadcasting [cost] against a column of length [m] (and assigning the
    result into it): equal lengths or a single entry. *)
Definition broadcast_to (m : nat) (x : list R) : result (list R) :=
  if (length x =? m)%nat then Ok x
  else if (length x =? 1)%nat then Ok (repeat (nth 0 x 0) m)
  else Err ValueError.

(** [gram_mat += np.outer(np.eye(d)[arm], np.eye(d)[arm])], where [d] is
    [A.shape[1]] for the script's module-level [A]: [IndexError] for
    [arm >= d]; an [n x n] matrix takes a [d x d] update when [d = n], and
    a [1 x 1] one by broadcasting. *)
Definition gram_add (d : nat) (gram : list (list R)) (arm : nat) : result (list (list R)) :=
  if (d <=? arm)%nat then Err IndexError
  else if (length gram =? d)%nat then
    Ok (set_nth gram arm (set_nth (nth arm gram []) arm (nth arm (nth arm gram []) 0 + 1)))
  else if (d =? 1)%nat then Ok (map (map (fun a => a + 1)) gram)
  else Err ValueError.

(** [Explorer.update(arm, reward, cost)] on the explorer's fields and its
    [gram_mat].  The count after the increment is at least 1 in every run
    (counts start at 0), so [1 / n] is finite.  [self.constraints] is the
    caller's [A_init] array itself, written in place with that array's dtype;
    the model stores the averaged column exactly, as a float [A_init] does
    (an integer one truncates it), and the properties below do not read the
    constraint estimates. *)
Definition update (dist : dist_type) (lower upper : R) (d : nat)
    (st : Explorer.state) (gram : list (list R)) (arm : nat) (reward : R) (cost : list R)
    : result (Explorer.state * list (list R)) :=
  match nth_error (Explorer.n_pulls st) arm with
  | None => Err IndexError
  | Some k =>
      let n := k + 1 in
      let n_pulls := set_nth (Explorer.n_pulls st) arm n in
      match nth_error (Explorer.means st) arm with
      | None => Err IndexError
      | Some m =>
          let means := set_nth (Explorer.means st) arm (m + 1 / n * (reward - m)) in
          col <- column (Explorer.constraints st) arm ;;
          cost' <- broadcast_to (length col) cost ;;
          let constraints := set_column (Explorer.constraints st) arm
                               (vmap2 (fun c a => ((n - 1) * c + a) / n) col cost') in
          gram' <- gram_add d gram arm ;;
          let means := match dist with
                       | Bernoulli => map (clip lower upper) means
                       | Gaussian => means
                       end in
          Ok ({| Explorer.t := S (Explorer.t st);
                 Explorer.n_pulls := n_pulls;
                 Explorer.means := means;
                 Explorer.constraints := constraints;
                 Explorer.b := Explorer.b st;
                 Explorer.delta := Explorer.delta st;
                 Explorer.l0 := Explorer.l0 st;
                 Explorer.sigma := Explorer.sigma st;
                 Explorer.neighbors := Explorer.neighbors st |}, gram')
      end
  end.

(** The successive calls [explorer.update(arm, reward, cost)] of a run. *)
Fixpoint run_updates (dist : dist_type) (lower upper : R) (d : nat)
    (st : Explorer.state) (gram : list (list R)) (obs : list (nat * R * list R))
    : result (Explorer.state * list (list R)) :=
  match obs with
  | [] => Ok (st, gram)
  | (arm, reward, cost) :: rest =>
      p <- update dist lower upper d st gram arm reward cost ;;
      run_updates dist lower upper d (fst p) (snd p) rest
  end.

(** The fields [Explorer.__init__] sets for [n] arms and the constraint
    estimate [A_init]. *)
Definition fresh (n : nat) (A_init : list (list R)) (b : list R) (delta : R) (l0 : list R)
    (sigma : R) : Explorer.state :=
  {| Explorer.t := 0;
     Explorer.n_pulls := repeat 0 n;
     Explorer.means := repeat 0 n;
     Explorer.constraints := A_init;
     Explorer.b := b;
     Explorer.delta := delta;
     Explorer.l0 := l0;
     Explorer.sigma := sigma;
     Explorer.neighbors := [] |}.

(** [Explorer.tracking(allocation)], returning the arm and the new
    [cumulative_weights]. *)
Definition tracking (d_tracking : bool) (n_arms : nat) (st : Explorer.state)
    (cumulative_weights allocation : list R) : result (option (nat * list R)) :=
  if d_tracking then
    k <- np_argmin (vmap2 Rminus (Explorer.n_pulls st)
                     (map (fun a => INR (Explorer.t st) * a) allocation)) ;;
    Ok (Some (k, cumulative_weights))
  else
    match odiv 1 (2 * sqrt (INR (Explorer.t st) + INR n_arms ^ 2)) with
    | None => Ok None
    | Some eps =>
        let eps_allocation := map (fun a => a + eps) allocation in
        match osequence (map (fun a => odiv a (sumR eps_allocation)) eps_allocation) with
        | None => Ok None
        | Some eps_allocation =>
            let cw := vmap2 Rplus cumulative_weights eps_allocation in
            k <- np_argmin (vmap2 Rminus (Explorer.n_pulls st) cw) ;;
            Ok (Some (k, cw))
        end
    end.

(** The number of updates of arm [i] in a list of [(arm, reward, cost)]
    observations, and the sums of its rewards and of entry [r] of its
    costs. *)
Definition pulls_of (i : nat) (obs : list (nat * R * list R)) : nat :=
  length (filter (fun '(a, _, _) => (a =? i)%nat) obs).

Definition reward_sum (i : nat) (obs : list (nat * R * list R)) : R :=
  sumR (map (fun '(a, r, _) => if (a =? i)%nat then r else 0) obs).

End Update.

End ExplorerUpdate.

(** * Properties *)

(** ** Generic list facts *)

Lemma fold_left_inv {A B} (P : A -> Prop) (f : A -> B -> A) (l : list B) :
  forall a, P a -> (forall a y, In y l -> P a -> P (f a y)) -> P (fold_left f l a).
Proof.
  induction l as [|y l IH]; intros a Ha Hstep; simpl; [exact Ha|].
  apply IH; [apply Hstep; [left|]; auto|].
  intros a' y' Hin; apply Hstep; right; exact Hin.
Qed.

Lemma ForallOrdPairs_snoc {A} (R : A -> A -> Prop) (l : list A) (x : A) :
  ForallOrdPairs R l -> Forall (fun e => R e x) l -> ForallOrdPairs R (l ++ [x]).
Proof.
  induction l as [|a l IH]; intros Hp Hf; simpl.
  - constructor; [constructor | constructor].
  - inversion Hp; subst; inversion Hf; subst.
    constructor; [apply Forall_app; split; auto | apply IH; auto].
Qed.

Lemma existsb_false_In {A} (f : A -> bool) (l : list A) :
  existsb f l = false -> forall x, In x l -> f x = false.
Proof.
  intros H x Hx; destruct (f x) eqn:E; [|reflexivity].
  rewrite <- H; symmetry; apply existsb_exists; exists x; auto.
Qed.

Lemma nth_map_seq {A} (f : nat -> A) n i d : (i < n)%nat -> nth i (map f (seq 0 n)) d = f i.
Proof.
  intros H; rewrite (nth_indep _ d (f 0%nat)) by (rewrite length_map, length_seq; lia).
  rewrite map_nth, seq_nth by lia; reflexivity.
Qed.

Lemma combinations_length {A} (k : nat) (l : list A) (c : list A) :
  In c (combinations k l) -> length c = k.
Proof.
  revert k c; induction l as [|x xs IH]; intros k c Hin; destruct k as [|k]; simpl in Hin.
  - destruct Hin as [<-|[]]; reflexivity.
  - destruct Hin.
  - destruct Hin as [<-|[]]; reflexivity.
  - apply in_app_or in Hin as [Hin|Hin].
    + apply in_map_iff in Hin as [c' [<- Hc']]; simpl; f_equal; apply IH; exact Hc'.
    + apply IH; exact Hin.
Qed.

Lemma combinations_short {A} (k : nat) (l : list A) :
  (length l < k)%nat -> combinations k l = [].
Proof.
  revert k; induction l as [|x xs IH]; intros k Hk; destruct k as [|k]; simpl in *; try lia.
  - reflexivity.
  - rewrite (IH k) by lia; rewrite (IH (S k)) by lia; reflexivity.
Qed.

Lemma set_nth_length {A} (l : list A) i v : length (set_nth l i v) = length l.
Proof.
  revert i; induction l as [|x l IH]; intros [|i]; simpl; auto.
Qed.

Lemma set_nth_In {A} (l : list A) i v : (i < length l)%nat -> In v (set_nth l i v).
Proof.
  revert i; induction l as [|x l IH]; intros [|i] Hi; simpl in *; try lia.
  - left; reflexivity.
  - right; apply IH; lia.
Qed.

Lemma Forall2_map_same {A B C} (R : B -> C -> Prop) (f : A -> B) (g : A -> C) (l : list A) :
  Forall2 R (map f l) (map g l) -> forall a, In a l -> R (f a) (g a).
Proof.
  induction l as [|x l IH]; simpl; intros H a Hin; [destruct Hin|].
  inversion H; subst; destruct Hin as [<-|Hin]; auto.
Qed.

Lemma length_filter_nth_seq (l : list bool) : forall k,
  length (filter (fun c => nth (c - k) l false) (seq k (length l))) = length (filter (fun x => x) l).
Proof.
  induction l as [|x l IH]; intros k; simpl; [reflexivity|].
  rewrite Nat.sub_diag.
  rewrite (filter_ext_in (fun c => nth (c - k) (x :: l) false) (fun c => nth (c - S k) l false)).
  - destruct x; simpl; rewrite IH; reflexivity.
  - intros c Hc; apply in_seq in Hc.
    replace (c - k)%nat with (S (c - S k)) by lia; reflexivity.
Qed.

(** ** Neighbour enumeration *)

Section NeighborFacts.
Local Open Scope Q_scope.

Lemma dotQ_compat_r (r x y : list Q) : Forall2 Qeq x y -> dotQ r x == dotQ r y.
Proof.
  intros H; revert r; induction H as [|a c x y Hac Hxy IH]; intros r;
    destruct r as [|e r]; unfold dotQ; simpl; try reflexivity.
  fold (dotQ r x); fold (dotQ r y); rewrite Hac, (IH r); reflexivity.
Qed.

Lemma active_mask_nth (slack : list Q) (c : nat) :
  (c < length slack)%nat -> nth c (active_mask slack) false = Qeq_bool (nth c slack 0) 0.
Proof.
  intros Hc; unfold active_mask.
  rewrite (nth_indep _ false (Qeq_bool 0 0)) by (rewrite length_map; exact Hc).
  apply map_nth.
Qed.

Lemma active_constraints_count (A : list (list Q)) (slack : list Q) :
  length slack = length A ->
  length (active_constraints A slack) = length (filter (fun s => Qeq_bool s 0) slack).
Proof.
  intros Hlen; unfold active_constraints; rewrite <- Hlen.
  rewrite (filter_ext (fun c => nth c (active_mask slack) false)
             (fun c => nth (c - 0) (active_mask slack) false))
    by (intros c; rewrite Nat.sub_0_r; reflexivity).
  replace (length slack) with (length (active_mask slack)) by apply length_map.
  rewrite length_filter_nth_seq; unfold active_mask; clear Hlen.
  induction slack as [|s slack IH]; simpl; [reflexivity|].
  destruct (Qeq_bool s 0); simpl; rewrite IH; reflexivity.
Qed.

End NeighborFacts.

Section NeighborTheorems.
Local Open Scope Q_scope.

Variable matrix_rank : list (list Q) -> nat.
Variable solve : list (list Q) -> list Q -> list Q.

Lemma compute_neighbors_Ok vertex A b slack ns :
  compute_neighbors matrix_rank solve vertex A b slack = Ok ns ->
  length slack = length A /\
  ns = fold_left (fun neighbors base =>
        fold_left (fun neighbors constraint =>
          fold_left (try_swap matrix_rank solve vertex A b base constraint)
            (seq 0 (length base)) neighbors)
          (inactive_constraints A slack) neighbors)
        (combinations (length vertex) (active_constraints A slack)) [].
Proof.
  unfold compute_neighbors.
  destruct (length slack =? length A)%nat eqn:E; simpl; intros H; inversion H; subst.
  split; [apply Nat.eqb_eq; exact E | reflexivity].
Qed.

(** What each accepted neighbour satisfies. *)
Definition neighbor_ok (vertex : list Q) (A : list (list Q)) (b slack : list Q) (x : list Q) : Prop :=
  all_le_tol (1 # 100000) (matvecQ A x) b = true /\
  (exists base constraint i,
     In base (combinations (length vertex) (active_constraints A slack)) /\
     In constraint (inactive_constraints A slack) /\ (i < length base)%nat /\
     matrix_rank (rows A (set_nth base i constraint)) = length vertex /\
     x = solve (rows A (set_nth base i constraint)) (entries b (set_nth base i constraint))) /\
  (exists c, (c < length A)%nat /\ ~ nth c slack 0 == 0 /\ dotQ (nth c A []) x == nth c b 0) /\
  ~ Forall2 Qeq x vertex.

End NeighborTheorems.

(** C10: a constraint is active exactly when its slack entry is exactly [0]
    (no tolerance); when fewer than [len(vertex)] slack entries are exactly
    zero, [compute_neighbors] returns the empty list. *)
Theorem compute_neighbors_active_exact
    (matrix_rank : list (list Q) -> nat) (solve : list (list Q) -> list Q -> list Q)
    (vertex : list Q) (A : list (list Q)) (b slack : list Q) (ns : list (list Q)) :
  compute_neighbors matrix_rank solve vertex A b slack = Ok ns ->
  (forall c, In c (active_constraints A slack) <-> (c < length A)%nat /\ (nth c slack 0 == 0)%Q) /\
  ((length (filter (fun s => Qeq_bool s 0) slack) < length vertex)%nat -> ns = []).
Proof.
  intros Hres; apply compute_neighbors_Ok in Hres as [Hlen ->]; split.
  - intros c; unfold active_constraints; rewrite filter_In, in_seq.
    split.
    + intros [[_ Hc] Hm]; simpl in Hc; split; [exact Hc|].
      rewrite active_mask_nth in Hm by lia; apply Qeq_bool_eq; exact Hm.
    + intros [Hc Hz]; split; [split; simpl; lia|].
      rewrite active_mask_nth by lia; apply Qeq_bool_iff; exact Hz.
  - intros Hfew; rewrite combinations_short; [reflexivity|].
    rewrite active_constraints_count by exact Hlen; exact Hfew.
Qed.

(** Witness: the vertex [(0.5, 0.5)] of [{x >= 0, x1 + x2 <= 1}], where a
    single constraint is active. *)
Lemma compute_neighbors_active_exact_witness :
  compute_neighbors rank2 solve2 [1 # 2; 1 # 2]%Q [[-1; 0]; [0; -1]; [1; 1]]%Q [0; 0; 1]%Q
    [1 # 2; 1 # 2; 0]%Q = Ok [] /\
  (length (filter (fun s => Qeq_bool s 0) [1 # 2; 1 # 2; 0]%Q) < length [1 # 2; 1 # 2]%Q)%nat /\
  @nil (list Q) = [].
Proof.
  split; [vm_compute; reflexivity|].
  split; [vm_compute; lia|].
  apply (compute_neighbors_active_exact rank2 solve2 [1 # 2; 1 # 2]%Q
           [[-1; 0]; [0; -1]; [1; 1]]%Q [0; 0; 1]%Q [1 # 2; 1 # 2; 0]%Q []);
    [vm_compute; reflexivity | vm_compute; lia].
Defined.

Section NeighborSound.
Local Open Scope Q_scope.

Variable matrix_rank : list (list Q) -> nat.
Variable solve : list (list Q) -> list Q -> list Q.
(** numpy's contract for [np.linalg.solve] on a full-rank square system. *)
Hypothesis solve_spec : forall B y,
  matrix_rank B = length B -> length y = length B -> Forall2 Qeq (matvecQ B (solve B y)) y.

Lemma try_swap_inv vertex A b slack base constraint :
  length slack = length A ->
  (forall c, (c < length A)%nat -> nth c slack 0 == nth c b 0 - dotQ (nth c A []) vertex) ->
  In base (combinations (length vertex) (active_constraints A slack)) ->
  In constraint (inactive_constraints A slack) ->
  forall ns i, In i (seq 0 (length base)) ->
  ForallOrdPairs (fun x y => arreqclose_in_list y [x] = false) ns /\
  Forall (neighbor_ok matrix_rank solve vertex A b slack) ns ->
  ForallOrdPairs (fun x y => arreqclose_in_list y [x] = false)
    (try_swap matrix_rank solve vertex A b base constraint ns i) /\
  Forall (neighbor_ok matrix_rank solve vertex A b slack)
    (try_swap matrix_rank solve vertex A b base constraint ns i).
Proof.
  intros Hlen Hslack Hbase Hcon ns i Hi [Hpairs Hok].
  apply in_seq in Hi; simpl in Hi.
  unfold try_swap.
  set (nb := set_nth base i constraint).
  destruct (matrix_rank (rows A nb) =? length vertex)%nat eqn:Hrank; [|auto].
  destruct (all_le_tol (1 # 100000) (matvecQ A (solve (rows A nb) (entries b nb))) b) eqn:Hle;
    [|simpl; auto].
  destruct (arreqclose_in_list (solve (rows A nb) (entries b nb)) ns) eqn:Hdup; [simpl; auto|].
  simpl; apply Nat.eqb_eq in Hrank.
  set (x := solve (rows A nb) (entries b nb)) in *.
  split.
  - apply ForallOrdPairs_snoc; [exact Hpairs|].
    apply Forall_forall; intros e He; simpl.
    unfold arreqclose_in_list in Hdup.
    assert (Hn := existsb_false_In _ _ Hdup e He).
    simpl in Hn; rewrite Hn; reflexivity.
  - apply Forall_app; split; [exact Hok|]; constructor; [|constructor].
    unfold inactive_constraints in Hcon; apply filter_In in Hcon as [Hcseq Hcm].
    apply in_seq in Hcseq; simpl in Hcseq.
    rewrite active_mask_nth in Hcm by lia.
    assert (Hnz : ~ nth constraint slack 0 == 0).
    { intros Hz; apply Qeq_bool_iff in Hz; rewrite Hz in Hcm; discriminate. }
    assert (Hlnb : length nb = length vertex).
    { unfold nb; rewrite set_nth_length; eapply combinations_length; exact Hbase. }
    assert (Hrow : dotQ (nth constraint A []) x == nth constraint b 0).
    { assert (Hs := solve_spec (rows A nb) (entries b nb)).
      unfold rows, entries in Hs; rewrite !length_map in Hs.
      specialize (Hs ltac:(unfold rows in Hrank; lia) eq_refl).
      unfold matvecQ in Hs; rewrite map_map in Hs.
      apply (Forall2_map_same _ (fun r => dotQ (nth r A []) x) (fun r => nth r b 0) nb Hs).
      unfold nb; apply set_nth_In.
      rewrite (combinations_length _ _ _ Hbase) in Hi |- *; lia. }
    split; [exact Hle|]; split; [|split].
    + exists base, constraint, i; repeat split; auto.
      * unfold inactive_constraints; apply filter_In; split;
          [apply in_seq; simpl; lia | rewrite active_mask_nth by lia; exact Hcm].
      * rewrite (combinations_length _ _ _ Hbase) in Hi |- *; lia.
    + exists constraint; split; [lia|]; split; [exact Hnz | exact Hrow].
    + intros Heq; apply Hnz.
      rewrite (Hslack constraint) by lia.
      rewrite <- (dotQ_compat_r (nth constraint A []) x vertex Heq), Hrow; ring.
Qed.

End NeighborSound.

(** C3: every neighbour returned for a vertex (given with its exact slack
    vector [b - A vertex]) satisfies [A x <= b + 1e-5], comes from a full-rank
    swapped basis in which an inactive constraint replaced an active one, is
    not approximately equal to a neighbour found before it, is tight on a
    constraint that is not tight at the vertex, and is not the vertex itself. *)
Theorem compute_neighbors_sound
    (matrix_rank : list (list Q) -> nat) (solve : list (list Q) -> list Q -> list Q)
    (solve_spec : forall B y, matrix_rank B = length B -> length y = length B ->
                  Forall2 Qeq (matvecQ B (solve B y)) y)
    (vertex : list Q) (A : list (list Q)) (b slack : list Q) (ns : list (list Q)) :
  (forall c, (c < length A)%nat -> (nth c slack 0 == nth c b 0 - dotQ (nth c A []) vertex)%Q) ->
  compute_neighbors matrix_rank solve vertex A b slack = Ok ns ->
  ForallOrdPairs (fun x y => arreqclose_in_list y [x] = false) ns /\
  Forall (neighbor_ok matrix_rank solve vertex A b slack) ns.
Proof.
  intros Hslack Hres; apply compute_neighbors_Ok in Hres as [Hlen ->].
  apply fold_left_inv; [split; constructor|].
  intros ns1 base Hbase Hinv1.
  apply fold_left_inv; [exact Hinv1|].
  intros ns2 constraint Hcon Hinv2.
  apply fold_left_inv; [exact Hinv2|].
  intros ns3 i Hi Hinv3.
  eapply try_swap_inv; eauto.
Qed.

(** Witness: the vertex [(1, 0)] of the two-arm simplex, with Cramer's rule
    for the linear algebra; the only neighbour is [(0, 1)]. *)
Lemma rank2_solve2_spec : forall B y, rank2 B = length B -> length y = length B ->
  Forall2 Qeq (matvecQ B (solve2 B y)) y.
Proof.
  intros B y HB Hy.
  destruct B as [|r1 [|r2 B]].
  - destruct y; simpl in Hy; [constructor | lia].
  - exfalso; destruct r1 as [|a [|c [|z r1]]]; simpl in HB; lia.
  - destruct r1 as [|a [|c [|z r1]]]; destruct r2 as [|d [|e [|w r2]]];
      try (exfalso; simpl in HB; lia).
    destruct B as [|r3 B]; [|exfalso; simpl in HB; lia].
    simpl in HB.
    destruct (Qeq_bool (a * e - c * d) 0) eqn:Hdet; [discriminate|].
    assert (Hnz : ~ (a * e - c * d == 0)%Q).
    { intros Hz; apply Qeq_bool_iff in Hz; rewrite Hz in Hdet; discriminate. }
    destruct y as [|y1 [|y2 [|? ?]]]; simpl in Hy; try lia.
    unfold matvecQ, dotQ; simpl.
    constructor; [|constructor; [|constructor]]; field; exact Hnz.
Qed.

Lemma compute_neighbors_sound_witness :
  compute_neighbors rank2 solve2 [1; 0]%Q simplex2_A simplex2_b [1; 0; 0; 0]%Q = Ok [[0; 1]%Q] /\
  ForallOrdPairs (fun x y => arreqclose_in_list y [x] = false) [[0; 1]%Q] /\
  Forall (neighbor_ok rank2 solve2 [1; 0]%Q simplex2_A simplex2_b [1; 0; 0; 0]%Q) [[0; 1]%Q].
Proof.
  split; [vm_compute; reflexivity|].
  apply (compute_neighbors_sound rank2 solve2 rank2_solve2_spec [1; 0]%Q simplex2_A simplex2_b
           [1; 0; 0; 0]%Q [[0; 1]%Q]).
  - intros c Hc; unfold simplex2_A in Hc; simpl in Hc.
    destruct c as [|[|[|[|c]]]]; [vm_compute; reflexivity .. | lia].
  - vm_compute; reflexivity.
Defined.

(** ** Bisection *)

Section BisectFacts.
Variable N : nat.

(** [P] holds on an initial segment of the probed indices [1 .. N-1]. *)
Definition prefix_closed (P : nat -> bool) : Prop :=
  forall i j, (1 <= i <= j)%nat -> (j < N)%nat -> P j = true -> P i = true.

Definition bracket (P : nat -> bool) (p q : nat) : Prop :=
  (p = 0 \/ (1 <= p /\ P p = true))%nat /\ (q = N \/ P q = false) /\ (p < q <= N)%nat.

Lemma mid_bounds p q : (p + 2 <= q)%nat -> (p + 1 <= (p + q) / 2 /\ (p + q) / 2 + 1 <= q)%nat.
Proof.
  intros H; split.
  - apply Nat.div_le_lower_bound; lia.
  - assert (Hd := Nat.div_mod (p + q) 2 ltac:(lia)).
    assert (Hm := Nat.mod_upper_bound (p + q) 2 ltac:(lia)); lia.
Qed.

Lemma bisect_bracket (P : nat -> bool) fuel : forall p q,
  bracket P p q -> (p + 2 <= q)%nat -> (q - p <= fuel + 1)%nat ->
  exists pf, bracket P pf (S pf) /\
    (bisect P fuel p q = pf \/ bisect P fuel p q = S pf) /\
    (1 <= bisect P fuel p q < N)%nat.
Proof.
  induction fuel as [|fuel IH]; intros p q [Hp [Hq Hpq]] H2 Hfuel; [lia|].
  destruct (mid_bounds p q H2) as [Hi1 Hi2].
  cbn -[Nat.div]; set (i := ((p + q) / 2)%nat) in *.
  destruct (P i) eqn:Pi.
  - destruct (q <=? i + 1)%nat eqn:Hdone.
    + apply Nat.leb_le in Hdone; exists i.
      split; [split; [right; split; [lia | exact Pi]|split; [|lia]]|].
      * replace (S i) with q by lia; exact Hq.
      * cbv beta iota; split; [left; reflexivity | lia].
    + apply Nat.leb_gt in Hdone; apply IH; try lia.
      repeat split; try lia; [right; split; [lia | exact Pi] | exact Hq].
  - destruct (i <=? p + 1)%nat eqn:Hdone.
    + apply Nat.leb_le in Hdone; exists p.
      split; [split; [exact Hp|split; [|lia]]|].
      * right; replace (S p) with i by lia; exact Pi.
      * cbv beta iota; split; [right; lia | lia].
    + apply Nat.leb_gt in Hdone; apply IH; try lia.
      repeat split; try lia; [exact Hp | right; exact Pi].
Qed.

Lemma bisect_agree (P P' : nat -> bool) fuel : forall p q,
  (forall i, (1 <= i < N)%nat -> P i = P' i) -> (p + 2 <= q <= N)%nat ->
  bisect P fuel p q = bisect P' fuel p q.
Proof.
  induction fuel as [|fuel IH]; intros p q Hag Hpq;
    destruct (mid_bounds p q ltac:(lia)) as [Hi1 Hi2];
    cbn -[Nat.div]; rewrite (Hag ((p + q) / 2)%nat) by lia; [reflexivity|].
  destruct (P' ((p + q) / 2)%nat) eqn:Pi.
  - destruct (q <=? (p + q) / 2 + 1)%nat eqn:Hdone; [reflexivity|].
    apply Nat.leb_gt in Hdone; apply IH; [exact Hag | lia].
  - destruct ((p + q) / 2 <=? p + 1)%nat eqn:Hdone; [reflexivity|].
    apply Nat.leb_gt in Hdone; apply IH; [exact Hag | lia].
Qed.

(** Enlarging a prefix-closed predicate moves the probed result right. *)
Lemma bisect_mono (P P' : nat -> bool) :
  (2 <= N)%nat -> prefix_closed P -> prefix_closed P' ->
  (forall i, (1 <= i < N)%nat -> P i = true -> P' i = true) ->
  (bisect P N 0 N <= bisect P' N 0 N)%nat.
Proof.
  intros HN HP HP' Hinc.
  assert (Hb : forall R, bracket R 0 N) by (intros R; repeat split; auto; lia).
  destruct (bisect_bracket P N 0 N (Hb P) ltac:(lia) ltac:(lia)) as [pf [[Hp [Hq Hpq]] [Hr _]]].
  destruct (bisect_bracket P' N 0 N (Hb P') ltac:(lia) ltac:(lia))
    as [pf' [[Hp' [Hq' Hpq']] [Hr' _]]].
  destruct (le_lt_dec (S pf) pf') as [Hlt|Hge]; [lia|].
  assert (Heq : pf = pf').
  { destruct Hp as [->|[H1 Hpt]]; [lia|].
    destruct (Nat.eq_dec pf pf') as [E|Hne]; [exact E|exfalso].
    destruct Hq' as [Hq'|Hq']; [lia|].
    assert (Hpt' := Hinc pf ltac:(lia) Hpt).
    rewrite (HP' (S pf') pf ltac:(lia) ltac:(lia) Hpt') in Hq'; discriminate. }
  subst pf'.
  assert (Hag : forall i, (1 <= i < N)%nat -> P i = P' i).
  { intros i Hi; destruct (le_lt_dec i pf) as [Hle|Hgt].
    - destruct Hp as [->|[H1 Hpt]]; [lia|].
      rewrite (HP i pf ltac:(lia) ltac:(lia) Hpt).
      symmetry; apply (HP' i pf ltac:(lia) ltac:(lia)); apply Hinc; [lia | exact Hpt].
    - destruct Hq as [Hq|Hq]; [lia|]; destruct Hq' as [Hq'|Hq']; [lia|].
      destruct (P i) eqn:Pi; destruct (P' i) eqn:P'i; try reflexivity; exfalso.
      + rewrite (HP (S pf) i ltac:(lia) ltac:(lia) Pi) in Hq; discriminate.
      + rewrite (HP' (S pf) i ltac:(lia) ltac:(lia) P'i) in Hq'; discriminate. }
  rewrite (bisect_agree P P' N 0 N Hag ltac:(lia)); lia.
Qed.

End BisectFacts.

(** ** Confidence intervals *)

Section ConfidenceFacts.
Local Open Scope Q_scope.

Lemma below_true (th x : Q) : negb (Qle_bool th x) = true <-> x < th.
Proof.
  rewrite negb_true_iff; split.
  - intros H; apply Qnot_le_lt; intros Hle; apply Qle_bool_iff in Hle; congruence.
  - intros H; destruct (Qle_bool th x) eqn:E; [|reflexivity].
    apply Qle_bool_iff in E; exfalso; apply (Qlt_not_le _ _ H E).
Qed.

Lemma bisect_lt_length (P : nat -> bool) (N : nat) :
  (2 <= N)%nat -> (1 <= bisect P N 0 N < N)%nat.
Proof.
  intros HN.
  destruct (bisect_bracket N P N 0 N) as [pf [_ [_ H]]]; [repeat split; auto; lia | lia | lia | exact H].
Qed.

Lemma lt_threshold_le (x y : Q) (t : threshold_value) :
  x <= y -> lt_threshold y t = true -> lt_threshold x t = true.
Proof.
  intros Hxy; destruct t as [q| | |]; cbn [lt_threshold]; try discriminate; [|reflexivity].
  intros Hy; apply below_true in Hy; apply below_true.
  apply (Qle_lt_trans _ _ _ Hxy Hy).
Qed.

(** The probed index grows with the threshold when [kl(mu, .)] grows along the grid. *)
Lemma binary_search_index_mono (m : Q) (th1 th2 : threshold_value) (kl : Q -> Q -> Q) (g : list Q) :
  (2 <= length g)%nat ->
  (forall x, lt_threshold x th1 = true -> lt_threshold x th2 = true) ->
  (forall i j, (i <= j < length g)%nat -> kl m (nth i g 0) <= kl m (nth j g 0)) ->
  (bisect (fun i => lt_threshold (kl m (nth i g 0%Q)) th1) (length g) 0 (length g) <=
   bisect (fun i => lt_threshold (kl m (nth i g 0%Q)) th2) (length g) 0 (length g))%nat.
Proof.
  intros Hg Hth Hkl.
  apply bisect_mono; [exact Hg | | |].
  - intros i j Hij Hj; apply lt_threshold_le, Hkl; lia.
  - intros i j Hij Hj; apply lt_threshold_le, Hkl; lia.
  - intros i Hi; apply Hth.
Qed.

Lemma linspace_length s e num : length (linspace s e num) = num.
Proof. unfold linspace; rewrite length_map, length_seq; reflexivity. Qed.

Lemma linspace_nth s e num i : (2 <= num)%nat -> (i < num)%nat ->
  nth i (linspace s e num) 0 == s + inject_Z (Z.of_nat i) * ((e - s) / inject_Z (Z.of_nat (num - 1))).
Proof.
  intros Hn Hi; unfold linspace; rewrite nth_map_seq by exact Hi.
  destruct (i =? num - 1)%nat eqn:E; [|reflexivity].
  apply Nat.eqb_eq in E; subst i.
  assert (Hnz : ~ inject_Z (Z.of_nat (num - 1)) == 0).
  { unfold Qeq; simpl; lia. }
  field; exact Hnz.
Qed.

Lemma linspace_step_sign (num : nat) : (2 <= num)%nat ->
  0 < inject_Z (Z.of_nat (num - 1)).
Proof. intros Hn; unfold Qlt; simpl; lia. Qed.

Lemma linspace_up s e num i j : (2 <= num)%nat -> s <= e -> (i <= j < num)%nat ->
  s <= nth i (linspace s e num) 0 /\ nth i (linspace s e num) 0 <= nth j (linspace s e num) 0.
Proof.
  intros Hn Hse Hij.
  rewrite !linspace_nth by lia.
  set (k := inject_Z (Z.of_nat (num - 1))).
  assert (Hk : 0 < k) by apply (linspace_step_sign num Hn).
  assert (Hst : 0 <= (e - s) / k).
  { apply Qle_shift_div_l; [exact Hk|]; Lqa.lra. }
  assert (Hi0 : 0 <= inject_Z (Z.of_nat i)) by (unfold Qle; simpl; lia).
  assert (Hij' : inject_Z (Z.of_nat i) <= inject_Z (Z.of_nat j)) by (unfold Qle; simpl; lia).
  split; Lqa.nra.
Qed.

Lemma linspace_down s e num i j : (2 <= num)%nat -> e <= s -> (i <= j < num)%nat ->
  nth i (linspace s e num) 0 <= s /\ nth j (linspace s e num) 0 <= nth i (linspace s e num) 0.
Proof.
  intros Hn Hse Hij.
  rewrite !linspace_nth by lia.
  set (k := inject_Z (Z.of_nat (num - 1))).
  assert (Hk : 0 < k) by apply (linspace_step_sign num Hn).
  assert (Hst : 0 <= (s - e) / k).
  { apply Qle_shift_div_l; [exact Hk|]; Lqa.lra. }
  assert (Heq : (e - s) / k == - ((s - e) / k)) by (field; intros Hz; rewrite Hz in Hk; discriminate).
  rewrite !Heq.
  assert (Hi0 : 0 <= inject_Z (Z.of_nat i)) by (unfold Qle; simpl; lia).
  assert (Hij' : inject_Z (Z.of_nat i) <= inject_Z (Z.of_nat j)) by (unfold Qle; simpl; lia).
  split; Lqa.nra.
Qed.

End ConfidenceFacts.

Section ConfidenceMono.
Local Open Scope Q_scope.

Lemma upper_search_mono (m upper : Q) (th1 th2 : threshold_value) (kl : Q -> Q -> Q) :
  m <= upper -> (forall x, lt_threshold x th1 = true -> lt_threshold x th2 = true) ->
  (forall x y, m <= x -> x <= y -> kl m x <= kl m y) ->
  fst (binary_search_float m (linspace m upper 5000) th1 kl) <=
  fst (binary_search_float m (linspace m upper 5000) th2 kl).
Proof.
  intros Hm Hth Hkl; unfold binary_search_float; cbn [fst].
  set (g := linspace m upper 5000).
  assert (Hg : length g = 5000%nat) by apply linspace_length.
  assert (Hr := binary_search_index_mono m th1 th2 kl g ltac:(lia) Hth).
  assert (Hr2 := bisect_lt_length (fun i => lt_threshold (kl m (nth i g 0)) th2)
                   (length g) ltac:(lia)).
  rewrite Hg in Hr, Hr2 |- *.
  refine (proj2 (linspace_up m upper 5000 _ _ ltac:(lia) Hm _)); split; [|lia].
  apply Hr; intros i j Hij.
  destruct (linspace_up m upper 5000 i j ltac:(lia) Hm ltac:(lia)) as [H1 H2].
  apply Hkl; assumption.
Qed.

Lemma lower_search_mono (m lower : Q) (th1 th2 : threshold_value) (kl : Q -> Q -> Q) :
  lower <= m -> (forall x, lt_threshold x th1 = true -> lt_threshold x th2 = true) ->
  (forall x y, y <= x -> x <= m -> kl m x <= kl m y) ->
  fst (binary_search_float m (linspace m lower 5000) th2 kl) <=
  fst (binary_search_float m (linspace m lower 5000) th1 kl).
Proof.
  intros Hm Hth Hkl; unfold binary_search_float; cbn [fst].
  set (g := linspace m lower 5000).
  assert (Hg : length g = 5000%nat) by apply linspace_length.
  assert (Hr := binary_search_index_mono m th1 th2 kl g ltac:(lia) Hth).
  assert (Hr2 := bisect_lt_length (fun i => lt_threshold (kl m (nth i g 0)) th2)
                   (length g) ltac:(lia)).
  rewrite Hg in Hr, Hr2 |- *.
  refine (proj2 (linspace_down m lower 5000 _ _ ltac:(lia) Hm _)); split; [|lia].
  apply Hr; intros i j Hij.
  destruct (linspace_down m lower 5000 i j ltac:(lia) Hm ltac:(lia)) as [H1 H2].
  apply Hkl; assumption.
Qed.

(** A larger [f_t] gives a larger float threshold [f_t / n] for a pull count
    [n >= 0], including [n = 0]: [nan] and [-inf] admit no loss, [inf] all. *)
Lemma np_divide_mono (f1 f2 n : Q) : f1 <= f2 -> 0 <= n ->
  forall x, lt_threshold x (np_divide f1 n) = true -> lt_threshold x (np_divide f2 n) = true.
Proof.
  intros Hf Hn x; unfold np_divide.
  destruct (Qeq_bool n 0) eqn:En.
  - destruct (Qle_bool f1 0) eqn:E1; cbn [negb].
    + destruct (Qle_bool 0 f1); cbn [negb lt_threshold]; discriminate.
    + destruct (Qle_bool f2 0) eqn:E2; [|reflexivity].
      apply Qle_bool_iff in E2.
      assert (E1' : f1 <= 0) by (apply (Qle_trans _ _ _ Hf E2)).
      apply Qle_bool_iff in E1'; congruence.
  - cbn [lt_threshold]; intros H; apply below_true in H; apply below_true.
    assert (Hn' : 0 < n).
    { destruct (Qlt_le_dec 0 n) as [Hlt|Hle]; [exact Hlt|].
      assert (Hz : n == 0) by (apply Qle_antisym; assumption).
      apply Qeq_bool_iff in Hz; congruence. }
    apply (Qlt_le_trans _ _ _ H).
    unfold Qdiv; apply Qmult_le_compat_r; [exact Hf|].
    apply Qinv_le_0_compat, Qlt_le_weak, Hn'.
Qed.

(** The default divergence [(m1 - m2)^2 / 2] grows with the distance from [m1]. *)
Lemma kl_default_grows (m : Q) :
  (forall x y, m <= x -> x <= y -> kl_default m x <= kl_default m y) /\
  (forall x y, y <= x -> x <= m -> kl_default m x <= kl_default m y).
Proof.
  assert (E : forall z : Q, z ^ 2 == z * z) by (intros; ring).
  split; intros x y Hx Hy; unfold kl_default, Qdiv;
    (apply Qmult_le_compat_r; [|discriminate]); rewrite !E; Lqa.nra.
Qed.

End ConfidenceMono.

(** C9 (as amended): let [kl(m, .)] grow with the distance from [m] (as
    the code's default Gaussian divergence does) and let the arm's pull
    count [n] be non-negative ([n = 0] gives the threshold [f_t / 0], that is
    [inf], [-inf] or [nan]).  When [f_t] grows, the arm's upper bound does not
    decrease if its mean [m] is at most the search ceiling [upper], and its
    lower bound does not increase if [m] is at least the search floor
    [lower].  For a mean beyond a search limit the grid runs the other way
    and the direction reverses: the upper bound does not increase if
    [upper <= m], and the lower bound does not decrease if [m <= lower]. *)
Theorem get_confidence_interval_monotone (mu pulls : list Q) (f1 f2 upper lower : Q)
    (kl : Q -> Q -> Q) (j : nat) (m n : Q) :
  (f1 <= f2)%Q -> nth_error (combine mu pulls) j = Some (m, n) -> (0 <= n)%Q ->
  (forall x y, m <= x -> x <= y -> kl m x <= kl m y)%Q ->
  (forall x y, y <= x -> x <= m -> kl m x <= kl m y)%Q ->
  exists l1 l2 u1 u2,
    nth_error (fst (get_confidence_interval mu pulls f1 upper lower (Some kl))) j = Some l1 /\
    nth_error (fst (get_confidence_interval mu pulls f2 upper lower (Some kl))) j = Some l2 /\
    nth_error (snd (get_confidence_interval mu pulls f1 upper lower (Some kl))) j = Some u1 /\
    nth_error (snd (get_confidence_interval mu pulls f2 upper lower (Some kl))) j = Some u2 /\
    ((m <= upper)%Q -> (u1 <= u2)%Q) /\
    ((lower <= m)%Q -> (l2 <= l1)%Q) /\
    ((upper <= m)%Q -> (u2 <= u1)%Q) /\
    ((m <= lower)%Q -> (l1 <= l2)%Q).
Proof.
  intros Hf Hj Hn Hup Hdown; unfold get_confidence_interval; cbn [fst snd].
  do 4 eexists; rewrite !nth_error_map, Hj; cbv beta iota.
  do 4 (split; [reflexivity|]).
  assert (Hth := np_divide_mono f1 f2 n Hf Hn).
  split; [|split; [|split]]; intros Hm.
  - apply upper_search_mono; assumption.
  - apply lower_search_mono; assumption.
  - apply lower_search_mono; assumption.
  - apply upper_search_mono; assumption.
Qed.

(** Witness: the default Gaussian divergence with [f_t] going from [0] to
    [1].  First an arm with mean [1/2] pulled three times, inside the search
    range [[-1, 10]]; then an arm with mean [2] never pulled (threshold [nan]
    then [inf]), beyond both search limits [upper = 1] and [lower = 3]. *)
Lemma get_confidence_interval_monotone_witness :
  (0 <= 1)%Q /\ nth_error (combine [1 # 2]%Q [3]%Q) 0 = Some (1 # 2, 3)%Q /\ (0 <= 3)%Q /\
  nth_error (combine [2]%Q [0]%Q) 0 = Some (2, 0)%Q /\ (0 <= 0)%Q /\
  (exists l1 l2 u1 u2,
    nth_error (fst (get_confidence_interval [1 # 2]%Q [3]%Q 0 10 (-1) (Some kl_default))) 0 = Some l1 /\
    nth_error (fst (get_confidence_interval [1 # 2]%Q [3]%Q 1 10 (-1) (Some kl_default))) 0 = Some l2 /\
    nth_error (snd (get_confidence_interval [1 # 2]%Q [3]%Q 0 10 (-1) (Some kl_default))) 0 = Some u1 /\
    nth_error (snd (get_confidence_interval [1 # 2]%Q [3]%Q 1 10 (-1) (Some kl_default))) 0 = Some u2 /\
    (u1 <= u2)%Q /\ (l2 <= l1)%Q) /\
  (exists l1 l2 u1 u2,
    nth_error (fst (get_confidence_interval [2]%Q [0]%Q 0 1 3 (Some kl_default))) 0 = Some l1 /\
    nth_error (fst (get_confidence_interval [2]%Q [0]%Q 1 1 3 (Some kl_default))) 0 = Some l2 /\
    nth_error (snd (get_confidence_interval [2]%Q [0]%Q 0 1 3 (Some kl_default))) 0 = Some u1 /\
    nth_error (snd (get_confidence_interval [2]%Q [0]%Q 1 1 3 (Some kl_default))) 0 = Some u2 /\
    (u2 <= u1)%Q /\ (l1 <= l2)%Q).
Proof.
  split; [discriminate|]; split; [reflexivity|]; split; [discriminate|].
  split; [reflexivity|]; split; [discriminate|].
  split.
  - destruct (get_confidence_interval_monotone [1 # 2]%Q [3]%Q 0 1 10 (-1) kl_default 0 (1 # 2) 3
                ltac:(discriminate) eq_refl ltac:(discriminate)
                (proj1 (kl_default_grows (1 # 2))) (proj2 (kl_default_grows (1 # 2))))
      as (l1 & l2 & u1 & u2 & H1 & H2 & H3 & H4 & Hu & Hl & _ & _).
    exists l1, l2, u1, u2; repeat (split; [assumption|]).
    split; [apply Hu | apply Hl]; discriminate.
  - destruct (get_confidence_interval_monotone [2]%Q [0]%Q 0 1 1 3 kl_default 0 2 0
                ltac:(discriminate) eq_refl ltac:(discriminate)
                (proj1 (kl_default_grows 2)) (proj2 (kl_default_grows 2)))
      as (l1 & l2 & u1 & u2 & H1 & H2 & H3 & H4 & _ & _ & Hu & Hl).
    exists l1, l2, u1, u2; repeat (split; [assumption|]).
    split; [apply Hu | apply Hl]; discriminate.
Defined.

(** C9 fails as stated: with the code's Gaussian divergence and an estimated
    mean [-2] below the search floor [lower = -1], raising [f_t] from [0] to
    [1] raises the lower bound from [-2 + 1/4999] to [-1]. *)
Lemma get_confidence_interval_lower_increases :
  fst (get_confidence_interval [-2]%Q [1]%Q 0 10 (-1) (Some kl_default)) = [-9997 # 4999]%Q /\
  fst (get_confidence_interval [-2]%Q [1]%Q 1 10 (-1) (Some kl_default)) = [-1]%Q /\
  (-9997 # 4999 < -1)%Q.
Proof.
  split; [vm_compute; reflexivity|]; split; [vm_compute; reflexivity|]; reflexivity.
Qed.

(** ** The feasible-set projection *)

(** C5 (as amended): [project_on_feasible] returns a point exactly when the
    optimiser produced one whose coordinates sum to [1] within [1e-5], and
    then returns that point unchanged: [A x <= b] is not checked.  It fails
    with an error exactly when the optimiser produced no point or a point
    whose sum is off by more than [1e-5]. *)
Theorem project_on_feasible_outcomes minimize_proj (allocation : list Q)
    (A : option (list (list Q))) (b : list Q) :
  let n := length allocation in
  let x0 := repeat (1 / inject_Z (Z.of_nat n))%Q n in
  let AB := stacked_system n A b in
  (forall x, project_on_feasible minimize_proj allocation A b = Ok x <->
     minimize_proj x0 allocation (fst AB) (snd AB) = Some x /\
     (Qabs (sumQ x - 1) <= 1 # 100000)%Q) /\
  ((exists e, project_on_feasible minimize_proj allocation A b = Err e) <->
     minimize_proj x0 allocation (fst AB) (snd AB) = None \/
     exists x, minimize_proj x0 allocation (fst AB) (snd AB) = Some x /\
               (1 # 100000 < Qabs (sumQ x - 1))%Q).
Proof.
  intros n x0 AB; unfold project_on_feasible; fold n; fold x0.
  subst AB; destruct (stacked_system n A b) as [A' b']; cbn [fst snd].
  destruct (minimize_proj x0 allocation A' b') as [x|] eqn:E; split.
  - intros r; destruct (Qle_bool (Qabs (sumQ x - 1)) (1 # 100000)) eqn:Hq; cbn [negb];
      split; intros H.
    + injection H as <-; split; [reflexivity | now apply Qle_bool_iff].
    + destruct H as [H _]; injection H as <-; reflexivity.
    + discriminate.
    + destruct H as [H Hle]; injection H as <-; apply Qle_bool_iff in Hle; congruence.
  - destruct (Qle_bool (Qabs (sumQ x - 1)) (1 # 100000)) eqn:Hq; cbn [negb]; split.
    + intros [e He]; discriminate.
    + intros [H|[x' [H Hlt]]]; [discriminate|]; injection H as <-.
      apply Qle_bool_iff in Hq; exfalso; apply (Qlt_not_le _ _ Hlt Hq).
    + intros _; right; exists x; split; [reflexivity|].
      apply Qnot_le_lt; intros Hle; apply Qle_bool_iff in Hle; congruence.
    + intros _; eexists; reflexivity.
  - intros r; split; [discriminate|]; intros [H _]; discriminate.
  - split; [intros _; left; reflexivity | intros _; eexists; reflexivity].
Qed.

(** An optimiser that stays at its starting point, as SLSQP does when it
    reports "Inequality constraints incompatible" at the first iterate. *)
Definition minimize_stuck (x0 _ : list Q) (_ : list (list Q)) (_ : list Q) : option (list Q) :=
  Some x0.

(** Witness: two arms, no constraint besides the simplex, the optimiser
    stopping at the uniform start. *)
Lemma project_on_feasible_outcomes_witness :
  project_on_feasible minimize_stuck [1 # 3; 2 # 3]%Q None [] = Ok [1 # 2; 1 # 2]%Q /\
  minimize_stuck [1 # 2; 1 # 2]%Q [1 # 3; 2 # 3]%Q
    (fst (stacked_system 2 None [])) (snd (stacked_system 2 None [])) = Some [1 # 2; 1 # 2]%Q /\
  (Qabs (sumQ [1 # 2; 1 # 2] - 1) <= 1 # 100000)%Q.
Proof.
  assert (H : project_on_feasible minimize_stuck [1 # 3; 2 # 3]%Q None [] = Ok [1 # 2; 1 # 2]%Q)
    by (vm_compute; reflexivity).
  split; [exact H|].
  exact (proj1 (proj1 (project_on_feasible_outcomes minimize_stuck [1 # 3; 2 # 3]%Q None [])
                [1 # 2; 1 # 2]%Q) H).
Defined.

(** C5 fails as stated: for [A = [[1, 1]]], [b = [0.5]] no point of the
    simplex satisfies the stacked system, yet with an optimiser that stops
    at its start the projection returns [[0.5, 0.5]], which violates
    [A x <= b + 1e-5]; no error is raised. *)
Lemma project_on_feasible_infeasible_returns :
  project_on_feasible minimize_stuck [1 # 3; 2 # 3]%Q (Some [[1; 1]]%Q) [1 # 2]%Q
    = Ok [1 # 2; 1 # 2]%Q /\
  all_le_tol (1 # 100000) (matvecQ [[1; 1]]%Q [1 # 2; 1 # 2]%Q) [1 # 2]%Q = false /\
  (forall x1 x2 : Q,
     all_le_tol 0 (matvecQ (fst (stacked_system 2 (Some [[1; 1]]%Q) [1 # 2]%Q)) [x1; x2])
       (snd (stacked_system 2 (Some [[1; 1]]%Q) [1 # 2]%Q)) = false).
Proof.
  split; [vm_compute; reflexivity|]; split; [vm_compute; reflexivity|].
  intros x1 x2; apply not_true_is_false; intros H.
  cbn in H; rewrite !andb_true_iff in H.
  destruct H as [H1 [_ [_ [_ [_ [_ [H7 _]]]]]]].
  apply Qle_bool_iff in H1; apply Qle_bool_iff in H7; Lqa.lra.
Qed.

(** ** The game solver's tolerance ladder *)

Section GameFacts.
Variable minimize_proj : list Q -> list Q -> list (list Q) -> list Q -> option (list Q).
Variable minimize_game : option Q -> list Q -> alloc_domain -> opt_result.
Variable uniform_draw : nat -> list Q.

Lemma sweep_loop_first_success dom sweep : forall count last, sweep <> [] ->
  (r <- sweep_loop minimize_proj minimize_game uniform_draw dom count sweep last ;;
   match r with
   | None => Err UnboundLocalError
   | Some res => if res_success res then Ok (Some (res_x res, - res_fun res)%Q) else Ok None
   end) = first_success minimize_proj minimize_game uniform_draw dom count sweep.
Proof.
  induction sweep as [|tol rest IH]; intros count last Hne; [congruence|].
  cbn [sweep_loop first_success].
  destruct (start_point minimize_proj uniform_draw dom count) as [x0|e]; cbn [bind]; [|reflexivity].
  destruct (res_success (minimize_game tol x0 dom)) eqn:Hs; cbn [bind]; [rewrite Hs; reflexivity|].
  destruct rest as [|t' rest'].
  - cbn; rewrite Hs; reflexivity.
  - apply IH; discriminate.
Qed.

End GameFacts.

(** C6 (as amended): without a starting point, [solve_game] tries the
    ladder [t0, 1e-16, 1e-12, 1e-6, 1e-4] in order, where [t0] is the
    caller's [tol] if it exceeds [1e-16] and [None] otherwise, each rung from
    a fresh random start, and returns the result of the first rung whose
    optimiser succeeds, or [None] (no error) when all fail; with a starting
    point it makes one attempt at the caller's [tol]. *)
Theorem solve_game_ladder minimize_proj minimize_game uniform_draw :
  (forall tol,
     tol_ladder tol =
       (match tol with
        | Some t => if Qlt_le_dec (1 # 10000000000000000) t then Some t else None
        | None => None
        end)
       :: [Some (1 # 10000000000000000); Some (1 # 1000000000000);
           Some (1 # 1000000); Some (1 # 10000)]%Q) /\
  (forall dom tol,
     solve_game minimize_proj minimize_game uniform_draw dom tol None =
     first_success minimize_proj minimize_game uniform_draw dom 0 (tol_ladder tol)) /\
  (forall dom tol x0,
     solve_game minimize_proj minimize_game uniform_draw dom tol (Some x0) =
     let res := minimize_game tol x0 dom in
     if res_success res then Ok (Some (res_x res, - res_fun res)%Q) else Ok None).
Proof.
  split; [|split].
  - intros [t|]; [|reflexivity]; unfold tol_ladder.
    destruct (Qlt_le_dec (1 # 10000000000000000) t) as [Hlt|Hle].
    + destruct (Qle_bool t (1 # 10000000000000000)) eqn:E; [|reflexivity].
      apply Qle_bool_iff in E; exfalso; Lqa.lra.
    + rewrite (proj2 (Qle_bool_iff _ _) Hle); reflexivity.
  - intros dom tol; unfold solve_game.
    apply sweep_loop_first_success; unfold tol_ladder;
      destruct tol as [t|]; [destruct (negb _)|]; discriminate.
  - reflexivity.
Qed.

(** An optimiser that converges only when scipy picks its own tolerance. *)
Definition minimize_auto_only (tol : option Q) (x0 : list Q) (_ : alloc_domain) : opt_result :=
  {| res_x := x0; res_fun := -1; res_success := match tol with None => true | Some _ => false end |}.

Definition draw_const (_ : nat) : list Q := [2 # 5; 1 # 2]%Q.

(** C6 fails as stated: with the caller's [tol = 1e-6] the ladder has no
    [None] rung, so an optimiser that converges only at [tol = None] fails
    on every rung, and [solve_game] returns Python's [None] instead of
    reporting an error; the rung [None] of the stated ladder would have
    succeeded. *)
Lemma solve_game_no_auto_rung :
  solve_game minimize_stuck minimize_auto_only draw_const OnSimplex (Some (1 # 1000000)%Q) None
    = Ok None /\
  ~ In None (tol_ladder (Some (1 # 1000000)%Q)) /\
  res_success (minimize_auto_only None [4 # 9; 5 # 9]%Q OnSimplex) = true.
Proof.
  split; [vm_compute; reflexivity|]; split; [|reflexivity].
  cbn; intros [H|[H|[H|[H|[H|H]]]]]; discriminate || contradiction.
Qed.

(** ** Vectors over [R] *)

Section RVecFacts.
Local Open Scope R_scope.

Lemma vmap2_length {B} (f : R -> R -> B) x y :
  length (vmap2 f x y) = Nat.min (length x) (length y).
Proof. unfold vmap2; rewrite length_map, length_combine; reflexivity. Qed.

Lemma vmap2_nth {B} (f : R -> R -> B) x y i d :
  (i < length x)%nat -> (i < length y)%nat -> nth i (vmap2 f x y) d = f (nth i x 0) (nth i y 0).
Proof.
  revert y i; induction x as [|a x IH]; intros [|c y] [|i] Hx Hy; cbn in *; try lia.
  - reflexivity.
  - apply IH; lia.
Qed.

Lemma vmap2_cons {B} (f : R -> R -> B) a x c y :
  vmap2 f (a :: x) (c :: y) = f a c :: vmap2 f x y.
Proof. reflexivity. Qed.

Lemma osequence_vmap2 (g : R -> R -> option R) (h : R -> R -> R) x y :
  (forall a c, c <> 0 -> g a c = Some (h a c)) -> Forall (fun c => c <> 0) y ->
  osequence (vmap2 g x y) = Some (vmap2 h x y).
Proof.
  intros Hg; revert y; induction x as [|a x IH]; intros [|c y] Hy; try reflexivity.
  inversion Hy as [|? ? Hc Hy']; subst.
  rewrite !vmap2_cons; cbn [osequence]; rewrite (Hg a c Hc), (IH y Hy'); reflexivity.
Qed.

Lemma odiv_nz x y : y <> 0 -> odiv x y = Some (x / y).
Proof. intros Hy; unfold odiv; destruct (Req_EM_T y 0); [contradiction | reflexivity]. Qed.

Lemma odiv_zero x : odiv x 0 = None.
Proof. unfold odiv; destruct (Req_EM_T 0 0); [reflexivity | contradiction]. Qed.

Lemma PRECISION_pos : 0 < PRECISION.
Proof. unfold PRECISION; apply Rinv_0_lt_compat, pow_lt; lra. Qed.

Lemma floored_nz w : Forall (fun a => 0 <= a) w ->
  Forall (fun c => c <> 0) (map (fun a => a + PRECISION) w).
Proof.
  intros Hw; apply Forall_map; eapply Forall_impl; [|exact Hw].
  intros a Ha; pose proof PRECISION_pos; lra.
Qed.

Lemma sumR_sq_div_nonneg v y : Forall (fun c => 0 < c) y ->
  0 <= sumR (vmap2 (fun a c => a ^ 2 / c) v y).
Proof.
  revert y; induction v as [|a v IH]; intros [|c y] Hy; try (cbn; lra).
  inversion Hy as [|? ? Hc Hy']; subst.
  rewrite vmap2_cons; specialize (IH y Hy'); cbn [sumR fold_right]; fold (sumR (vmap2 (fun a c => a ^ 2 / c) v y)).
  assert (0 <= a ^ 2 / c); [|lra].
  unfold Rdiv; apply Rmult_le_pos; [apply pow2_ge_0 | apply Rlt_le, Rinv_0_lt_compat, Hc].
Qed.

Lemma nth_floored w i : (i < length w)%nat ->
  nth i (map (fun a => a + PRECISION) w) 0 = nth i w 0 + PRECISION.
Proof.
  intros Hi; rewrite (nth_indep _ 0 (0 + PRECISION)) by (rewrite length_map; exact Hi).
  apply (map_nth (fun a => a + PRECISION)).
Qed.

End RVecFacts.

Section GaussianFacts.
Local Open Scope R_scope.

(** The closed form computed by both Gaussian projections, for a
    normaliser denominator [den]. *)
Definition gauss_alt (mu v wP : list R) (den : R) : list R :=
  vmap2 Rminus mu (vmap2 (fun a c => dotR mu v / den * a / c) v wP).

Lemma gauss_alt_nth mu v w den i :
  length mu = length w -> length v = length w -> (i < length w)%nat ->
  nth i (gauss_alt mu v (map (fun a => a + PRECISION) w) den) 0 =
  nth i mu 0 - dotR mu v / den * nth i v 0 / (nth i w 0 + PRECISION).
Proof.
  intros Hm Hv Hi; unfold gauss_alt.
  rewrite vmap2_nth by (try rewrite vmap2_length, length_map; lia).
  rewrite vmap2_nth by (try rewrite length_map; lia).
  rewrite nth_floored by exact Hi; reflexivity.
Qed.

Lemma gauss_alt_length mu v w den :
  length mu = length w -> length v = length w ->
  length (gauss_alt mu v (map (fun a => a + PRECISION) w) den) = length w.
Proof.
  intros Hm Hv; unfold gauss_alt; rewrite !vmap2_length, length_map; lia.
Qed.

(** [gaussian_projection_lb] with a nonzero normaliser. *)
Lemma gaussian_projection_lb_closed w mu pi1 pi2 sigma :
  Forall (fun a => 0 <= a) w -> sigma <> 0 ->
  let v := vmap2 Rminus pi1 pi2 in
  let wP := map (fun a => a + PRECISION) w in
  let N := sumR (vmap2 (fun a c => a ^ 2 / c) v wP) in
  N <> 0 ->
  gaussian_projection_lb w mu pi1 pi2 sigma =
    Some (gauss_alt mu v wP N,
          sumR (vmap2 (fun a d => a * d ^ 2) w (vmap2 Rminus mu (gauss_alt mu v wP N))) / (2 * sigma ^ 2)).
Proof.
  intros Hw Hs v wP N HN; unfold gaussian_projection_lb; fold v; fold wP.
  assert (HwP : Forall (fun c => c <> 0) wP) by (apply floored_nz, Hw).
  rewrite (osequence_vmap2 _ (fun a c => a ^ 2 / c)) by (auto using odiv_nz).
  cbn [obind]; fold N; rewrite odiv_nz by exact HN; cbn [obind].
  rewrite (osequence_vmap2 _ (fun a c => dotR mu v / N * a / c)) by (auto using odiv_nz).
  cbn [obind]; rewrite odiv_nz by (apply Rmult_integral_contrapositive; split; [lra | apply pow_nonzero, Hs]).
  reflexivity.
Qed.

End GaussianFacts.

(** The closed forms the two Gaussian projections compute:
    [gaussian_projection] returns the alternative mean
    [mu - (mu.v / (N + PRECISION)) * v / (w + PRECISION)], where
    [N = sum(v^2 / (w + PRECISION))]; [gaussian_projection_lb] returns
    [mu - (mu.v / N) * v / (w + PRECISION)], whose normaliser [N] is not
    floored, and the value [sum(w * (mu - lam)^2) / (2 sigma^2)]. *)
Theorem gaussian_projection_formulas minimize_l (w mu pi1 pi2 l0 : list R)
    (A : list (list R)) (b : list R) (sigma : R) :
  length pi1 = length w -> length pi2 = length w -> length mu = length w ->
  Forall (fun a => 0 <= a)%R w -> sigma <> 0%R -> A <> [] -> length b = length A ->
  let v := vmap2 Rminus pi1 pi2 in
  let N := sumR (vmap2 (fun a c => a ^ 2 / c)%R v (map (fun a => a + PRECISION)%R w)) in
  (exists lam val x,
     gaussian_projection minimize_l w mu pi1 pi2 l0 A b sigma = Ok (Some (lam, val, x)) /\
     length lam = length w /\
     forall i, (i < length w)%nat ->
       nth i lam 0%R = (nth i mu 0 - dotR mu v / (N + PRECISION) * nth i v 0 / (nth i w 0 + PRECISION))%R) /\
  (N <> 0%R -> exists lam value,
     gaussian_projection_lb w mu pi1 pi2 sigma = Some (lam, value) /\
     length lam = length w /\
     (forall i, (i < length w)%nat ->
        nth i lam 0%R = (nth i mu 0 - dotR mu v / N * nth i v 0 / (nth i w 0 + PRECISION))%R) /\
     value = (sumR (vmap2 (fun a d => a * d ^ 2) w (vmap2 Rminus mu lam)) / (2 * sigma ^ 2))%R).
Proof.
  intros H1 H2 Hm Hw Hs HA Hb v N.
  assert (Hv : length v = length w) by (subst v; rewrite vmap2_length; lia).
  split.
  - assert (HwP : Forall (fun c => c <> 0%R) (map (fun a => a + PRECISION)%R w))
      by (apply floored_nz, Hw).
    assert (HNP : (N + PRECISION <> 0)%R).
    { assert (0 <= N)%R; [|pose proof PRECISION_pos; lra].
      apply sumR_sq_div_nonneg, Forall_map; eapply Forall_impl; [|exact Hw].
      intros a Ha; simpl; pose proof PRECISION_pos; lra. }
    unfold gaussian_projection; fold v.
    destruct (np_min (vmap2 Rminus (matvecR A w) b)) as [gmin|e] eqn:Hmin.
    2:{ exfalso; destruct A as [|r A]; [congruence|]; destruct b as [|c b]; [discriminate|].
        discriminate Hmin. }
    cbn [bind].
    rewrite (osequence_vmap2 _ (fun a c => a ^ 2 / c)%R) by (auto using odiv_nz).
    cbn [obind]; fold N; rewrite odiv_nz by exact HNP; cbn [obind].
    rewrite (osequence_vmap2 _ (fun a c => dotR mu v / (N + PRECISION) * a / c)%R) by (auto using odiv_nz).
    cbn [obind]; rewrite odiv_nz by (apply Rmult_integral_contrapositive; split; [lra | apply pow_nonzero, Hs]).
    cbn [obind]; do 3 eexists; split; [reflexivity|].
    fold (gauss_alt mu v (map (fun a => a + PRECISION)%R w) (N + PRECISION)).
    split; [apply gauss_alt_length; assumption|].
    intros i Hi; apply gauss_alt_nth; assumption.
  - intros HN; rewrite (gaussian_projection_lb_closed w mu pi1 pi2 sigma Hw Hs HN).
    do 2 eexists; split; [reflexivity|]; split; [apply gauss_alt_length; assumption|].
    split; [intros i Hi; apply gauss_alt_nth; assumption | reflexivity].
Qed.

(** Witness: two arms with equal weights, [mu = (1, 2)], the policies
    [(1, 0)] and [(0, 1)], one constraint row. *)
Lemma gaussian_projection_formulas_witness :
  exists lam value,
    gaussian_projection_lb [/ 2; / 2]%R [1; 2]%R [1; 0]%R [0; 1]%R 1%R = Some (lam, value).
Proof.
  assert (Hw : Forall (fun a => 0 <= a)%R [/ 2; / 2]%R) by (repeat constructor; lra).
  assert (HN : sumR (vmap2 (fun a c => a ^ 2 / c)%R (vmap2 Rminus [1; 0]%R [0; 1]%R)
                 (map (fun a => a + PRECISION)%R [/ 2; / 2]%R)) <> 0%R).
  { pose proof PRECISION_pos; cbn.
    assert (0 < (1 - 0) ^ 2 / (/ 2 + PRECISION))%R
      by (unfold Rdiv; apply Rmult_lt_0_compat; [lra | apply Rinv_0_lt_compat; lra]).
    assert (0 <= (0 - 1) ^ 2 / (/ 2 + PRECISION))%R
      by (unfold Rdiv; apply Rmult_le_pos; [apply pow2_ge_0 | apply Rlt_le, Rinv_0_lt_compat; lra]).
    lra. }
  destruct (proj2 (gaussian_projection_formulas (fun _ l0 _ => l0) [/ 2; / 2]%R [1; 2]%R
                     [1; 0]%R [0; 1]%R [0]%R [[1; 1]]%R [1]%R 1%R
                     eq_refl eq_refl eq_refl Hw R1_neq_R0 ltac:(discriminate) eq_refl) HN)
    as (lam & value & E & _).
  exists lam, value; exact E.
Defined.

(** C2 (a code defect): unlike [gaussian_projection], which divides by
    [normalizer + PRECISION], [gaussian_projection_lb] divides by the bare
    normaliser, so not every weight-derived denominator is floored.  For [w = (0.5, 0.5)], [mu = (1, 2)], [pi1 = (1, 0)],
    [pi2 = (0, 1)] its alternative mean has first coordinate exactly [3/2],
    which differs from the value [mu - (mu.v / (N + PRECISION)) * v / (w + PRECISION)]
    of the floored formula. *)
Lemma gaussian_projection_lb_unfloored :
  exists lam value,
    gaussian_projection_lb [/ 2; / 2]%R [1; 2]%R [1; 0]%R [0; 1]%R 1%R = Some (lam, value) /\
    nth 0 lam 0%R = (3 / 2)%R /\
    nth 0 lam 0%R <>
      (1 - dotR [1; 2] (vmap2 Rminus [1; 0] [0; 1]) /
             (sumR (vmap2 (fun a c => a ^ 2 / c) (vmap2 Rminus [1; 0] [0; 1])
                      (map (fun a => a + PRECISION) [/ 2; / 2])) + PRECISION)
           * (1 - 0) / (/ 2 + PRECISION))%R.
Proof.
  pose proof PRECISION_pos as HP.
  assert (Hw : Forall (fun a => 0 <= a)%R [/ 2; / 2]%R) by (repeat constructor; lra).
  set (u := (/ 2 + PRECISION)%R).
  assert (Hu : (0 < u)%R) by (subst u; lra).
  assert (EN : sumR (vmap2 (fun a c => a ^ 2 / c)%R (vmap2 Rminus [1; 0]%R [0; 1]%R)
                 (map (fun a => a + PRECISION)%R [/ 2; / 2]%R)) = (2 / u)%R)
    by (cbn; fold u; field; lra).
  assert (HN : (2 / u <> 0)%R).
  { unfold Rdiv; apply Rmult_integral_contrapositive; split; [lra | apply Rinv_neq_0_compat; lra]. }
  rewrite <- EN in HN.
  rewrite (gaussian_projection_lb_closed _ _ _ _ _ Hw R1_neq_R0 HN).
  do 2 eexists; split; [reflexivity|].
  assert (E0 : nth 0 (gauss_alt [1; 2]%R (vmap2 Rminus [1; 0]%R [0; 1]%R)
                 (map (fun a => a + PRECISION)%R [/ 2; / 2]%R)
                 (sumR (vmap2 (fun a c => a ^ 2 / c)%R (vmap2 Rminus [1; 0]%R [0; 1]%R)
                    (map (fun a => a + PRECISION)%R [/ 2; / 2]%R)))) 0%R = (3 / 2)%R).
  { rewrite EN; cbn; fold u; field; lra. }
  split; [exact E0|]; rewrite E0, EN.
  assert (Ed : dotR [1; 2]%R (vmap2 Rminus [1; 0]%R [0; 1]%R) = (-1)%R) by (cbn; ring).
  rewrite Ed; fold u.
  assert (Hpu : (0 < PRECISION * u)%R) by (apply Rmult_lt_0_compat; assumption).
  assert (E : (1 - -1 / (2 / u + PRECISION) * (1 - 0) / u = 1 + 1 / (2 + PRECISION * u))%R)
    by (field; split; lra).
  rewrite E; intros H.
  assert (H' : (1 / (2 + PRECISION * u) = / 2)%R) by lra.
  assert (H'' : ((2 + PRECISION * u) * (1 / (2 + PRECISION * u)) = 1)%R) by (field; lra).
  rewrite H' in H''; lra.
Qed.

Section EqualPolicies.
Local Open Scope R_scope.

Lemma sumR_sq_div_self pi y :
  sumR (vmap2 (fun a c => a ^ 2 / c) (vmap2 Rminus pi pi) y) = 0.
Proof.
  revert y; induction pi as [|a pi IH]; intros [|c y]; try reflexivity.
  rewrite !vmap2_cons; cbn [sumR fold_right].
  fold (sumR (vmap2 (fun a c => a ^ 2 / c) (vmap2 Rminus pi pi) y)); rewrite IH.
  replace (a - a) with 0 by ring; unfold Rdiv; ring.
Qed.

End EqualPolicies.

(** C8 (a code defect): for [pi1 = pi2] the normaliser of
    [gaussian_projection_lb] is [0] and [mu.v / normalizer] is [0 / 0]:
    the projection is [nan] instead of [(mu, 0)], for every non-negative
    weight vector. *)
Theorem gaussian_projection_lb_equal_policies (w mu pi : list R) (sigma : R) :
  Forall (fun a => 0 <= a)%R w -> gaussian_projection_lb w mu pi pi sigma = None.
Proof.
  intros Hw; unfold gaussian_projection_lb.
  rewrite (osequence_vmap2 _ (fun a c => a ^ 2 / c)%R)
    by (auto using odiv_nz, floored_nz).
  cbn [obind]; rewrite sumR_sq_div_self, odiv_zero; reflexivity.
Qed.

(** Witness: [w = (0.5, 0.5)], [mu = (1, 2)], [pi1 = pi2 = (1, 0)]. *)
Lemma gaussian_projection_lb_equal_policies_witness :
  Forall (fun a => 0 <= a)%R [/ 2; / 2]%R /\
  gaussian_projection_lb [/ 2; / 2]%R [1; 2]%R [1; 0]%R [1; 0]%R 1%R = None.
Proof.
  assert (Hw : Forall (fun a => 0 <= a)%R [/ 2; / 2]%R) by (repeat constructor; lra).
  split; [exact Hw|].
  exact (gaussian_projection_lb_equal_policies [/ 2; / 2]%R [1; 2]%R [1; 0]%R 1%R Hw).
Defined.

(** C7 (a code defect): [bernoulli_projection] calls
    [gaussian_projection(w, mu, pi1, pi2, sigma)] with five positional
    arguments while the function requires seven ([l0], [A], [b] were
    added), so every call raises [TypeError]. *)
Theorem bernoulli_projection_type_error minimize_l minimize_b (w mu pi1 pi2 : list R) (sigma : R) :
  bernoulli_projection minimize_l minimize_b w mu pi1 pi2 sigma = Err TypeError.
Proof. reflexivity. Qed.

(** ** The stopping test *)

Section StoppingFacts.
Local Open Scope R_scope.

Lemma np_log_pos x : 0 < x -> np_log x = Some (ln x).
Proof. intros Hx; unfold np_log; destruct (Rlt_dec 0 x); [reflexivity | contradiction]. Qed.

Lemma np_sqrt_nonneg x : 0 <= x -> np_sqrt x = Some (sqrt x).
Proof. intros Hx; unfold np_sqrt; destruct (Rle_dec 0 x); [reflexivity | contradiction]. Qed.

End StoppingFacts.

Section StoppingGLRT.
Local Open Scope R_scope.

(** C1: in a round [t >= 1] with [delta > 0] and [w_t_norm >= 0], for a
    vertex whose neighbours are cached, the stopping test fires exactly when
    [t * game_value + l.(b - (A - f_t sqrt(w_t_norm)) vertex) >
     beta + sum(l) * (f_t sqrt(w_t_norm) + 1)], with
    [beta = log((1 + log t) * 2 / delta)] and [(game_value, _, l)] the best
    response at the empirical allocation against the unshrunk constraints. *)
Theorem stopping_criterion_glrt
    (best_response : list R -> list R -> list R -> list (list R) -> list R -> list (list R) ->
                     list R -> R -> R * list R * list R)
    (st : Explorer.state) (vertex : list R) (arm : nat)
    (f_t w_t_norm : R) (ns : list (list R)) :
  Explorer.lookup vertex (Explorer.neighbors st) = Ok ns ->
  (1 <= Explorer.t st)%nat -> (0 < Explorer.delta st)%R -> (0 <= w_t_norm)%R ->
  let '(game_value, _, best_l) :=
    best_response (Explorer.empirical_allocation st) (Explorer.means st) vertex ns
      (Explorer.l0 st) (Explorer.constraints st) (Explorer.b st) (Explorer.sigma st) in
  let beta := ln ((1 + ln (INR (Explorer.t st))) * 2 / Explorer.delta st) in
  let shrunk := map (map (fun a => a - f_t * sqrt w_t_norm)) (Explorer.constraints st) in
  Explorer.stopping_criterion best_response st vertex arm f_t w_t_norm = Ok true <->
  (INR (Explorer.t st) * game_value
     + dotR best_l (vmap2 Rminus (Explorer.b st) (matvecR shrunk vertex))
   > beta + sumR best_l * (f_t * sqrt w_t_norm + 1))%R.
Proof.
  intros Hns Ht Hd Hw.
  unfold Explorer.stopping_criterion; rewrite Hns; cbn [bind].
  destruct (best_response _ _ _ _ _ _ _ _) as [[game_value inst] best_l].
  assert (HtR : (1 <= INR (Explorer.t st))%R) by (apply (le_INR 1); exact Ht).
  rewrite np_log_pos by lra; cbn [obind].
  assert (Hln : (0 <= ln (INR (Explorer.t st)))%R).
  { rewrite <- ln_1; destruct (Req_dec (INR (Explorer.t st)) 1) as [E|E];
      [rewrite E; lra | apply Rlt_le, ln_increasing; lra]. }
  rewrite np_log_pos
    by (unfold Rdiv; apply Rmult_lt_0_compat; [lra | apply Rinv_0_lt_compat; exact Hd]).
  rewrite np_sqrt_nonneg by exact Hw.
  destruct (Rlt_dec _ _) as [Hlt|Hnlt]; split; intros H.
  - exact Hlt.
  - reflexivity.
  - discriminate.
  - contradiction.
Qed.

(** A best response with value [1] and multipliers [(1)]. *)
Definition best_response_const (_ _ _ : list R) (_ : list (list R)) (_ : list R)
    (_ : list (list R)) (_ : list R) (_ : R) : R * list R * list R :=
  (1%R, [0%R], [1%R]).

(** One arm pulled once, one constraint [x <= 1], [delta = 1/2]. *)
Definition explorer_one : Explorer.state :=
  {| Explorer.t := 1; Explorer.n_pulls := [1%R]; Explorer.means := [1%R];
     Explorer.constraints := [[1%R]]; Explorer.b := [1%R]; Explorer.delta := (/ 2)%R;
     Explorer.l0 := [0%R]; Explorer.sigma := 1%R;
     Explorer.neighbors := [([1%R], [[0%R]])] |}.

(** Witness: the single-arm explorer at vertex [(1)], [f_t = 1],
    [w_t_norm = 0]. *)
Lemma stopping_criterion_glrt_witness :
  Explorer.lookup [1%R] (Explorer.neighbors explorer_one) = Ok [[0%R]] /\
  (Explorer.stopping_criterion best_response_const explorer_one [1%R] 0 1 0 = Ok true <->
   (INR 1 * 1 + dotR [1] (vmap2 Rminus [1] (matvecR (map (map (fun a => a - 1 * sqrt 0)) [[1]]) [1]))
    > ln ((1 + ln (INR 1)) * 2 / / 2) + sumR [1] * (1 * sqrt 0 + 1))%R).
Proof.
  assert (Hl : Explorer.lookup [1%R] (Explorer.neighbors explorer_one) = Ok [[0%R]]).
  { cbn -[list_eq_dec]; destruct (list_eq_dec Req_EM_T [1%R] [1%R]) as [_|n]; [reflexivity | congruence]. }
  split; [exact Hl|].
  exact (stopping_criterion_glrt best_response_const explorer_one [1%R] 0 1 0 [[0%R]] Hl
           (le_n 1) ltac:(cbn; lra) (Rle_refl 0)).
Defined.

End StoppingGLRT.

(** ** The experiment loop *)

Section HarnessFacts.
Variable Policy : Type.
Variables n_arms ini_phase : nat.
Variable lp_solve : nat -> option Policy.
Variable adaptive_step : nat -> Policy -> nat * bool.

Local Abbreviation act := (Harness.act Policy n_arms ini_phase lp_solve adaptive_step).
Local Abbreviation loop := (Harness.loop Policy n_arms ini_phase lp_solve adaptive_step).




End HarnessFacts.


(** An LP that fails in round [3] only. *)
Definition lp_fails_at_3 (t : nat) : option unit := if (t =? 3)%nat then None else Some tt.





(** * Further properties of the code *)

(** ** [binary_search] and [get_confidence_interval] *)

Section SearchFacts.
Local Open Scope Q_scope.

Lemma linspace_last s e num : (1 <= num)%nat -> nth (num - 1) (linspace s e num) 0 = e.
Proof.
  intros Hn; unfold linspace; rewrite nth_map_seq by lia; rewrite Nat.eqb_refl; reflexivity.
Qed.

Lemma linspace_inside_up s e num i : (2 <= num)%nat -> s < e -> (1 <= i < num)%nat ->
  s < nth i (linspace s e num) 0 /\ nth i (linspace s e num) 0 <= e.
Proof.
  intros Hn Hse Hi; split.
  - rewrite linspace_nth by lia.
    set (k := inject_Z (Z.of_nat (num - 1))).
    assert (Hk : 0 < k) by apply (linspace_step_sign num Hn).
    assert (Hst : 0 < (e - s) / k).
    { apply Qlt_shift_div_l; [exact Hk|]; Lqa.lra. }
    assert (Hi0 : 1 <= inject_Z (Z.of_nat i)) by (unfold Qle; simpl; lia).
    Lqa.nra.
  - rewrite <- (linspace_last s e num) at 2 by lia.
    apply (linspace_up s e num i (num - 1)); [lia | Lqa.lra | lia].
Qed.

Lemma linspace_inside_down s e num i : (2 <= num)%nat -> e < s -> (1 <= i < num)%nat ->
  e <= nth i (linspace s e num) 0 /\ nth i (linspace s e num) 0 < s.
Proof.
  intros Hn Hse Hi; split.
  - rewrite <- (linspace_last s e num) at 1 by lia.
    apply (linspace_down s e num i (num - 1)); [lia | Lqa.lra | lia].
  - rewrite linspace_nth by lia.
    set (k := inject_Z (Z.of_nat (num - 1))).
    assert (Hk : 0 < k) by apply (linspace_step_sign num Hn).
    assert (Hst : 0 < (s - e) / k).
    { apply Qlt_shift_div_l; [exact Hk|]; Lqa.lra. }
    assert (Heq : (e - s) / k == - ((s - e) / k)) by (field; intros Hz; rewrite Hz in Hk; discriminate).
    rewrite Heq.
    assert (Hi0 : 1 <= inject_Z (Z.of_nat i)) by (unfold Qle; simpl; lia).
    Lqa.nra.
Qed.

(** The point [binary_search] returns on a grid of at least two points. *)
Lemma binary_search_point mu interval threshold kl :
  (2 <= length interval)%nat ->
  exists i, (1 <= i < length interval)%nat /\
    binary_search_float mu interval threshold kl = (nth i interval 0, kl mu (nth i interval 0)).
Proof.
  intros Hn; unfold binary_search_float.
  eexists; split; [apply bisect_lt_length; exact Hn | reflexivity].
Qed.

End SearchFacts.

Section ArrEqClose.
Local Open Scope Q_scope.

Lemma allclose_refl x : allclose x x = true.
Proof.
  unfold allclose; induction x as [|a x IH]; [reflexivity|].
  cbn [combine forallb]; rewrite IH, andb_true_r.
  apply Qle_bool_iff; setoid_replace (a - a) with 0 by ring.
  assert (H := Qabs_nonneg a); simpl Qabs at 1; Lqa.lra.
Qed.

End ArrEqClose.

(** [binary_search] on a grid of [N >= 2] points returns a point [interval[i]]
    with [1 <= i < N] (never the first grid point) next to a crossing of the
    threshold: either its loss is below the threshold and the next point's
    is not (or it is the last point), or its loss is not below the threshold
    and the previous point's is (or it is the second point).  The loss
    returned is [kl(mu, x)]. *)
Theorem binary_search_crossing (mu threshold : Q) (interval : list Q) (kl : Q -> Q -> Q) :
  (2 <= length interval)%nat ->
  exists i, (1 <= i < length interval)%nat /\
    binary_search mu interval threshold kl = (nth i interval 0, kl mu (nth i interval 0)) /\
    (((kl mu (nth i interval 0) < threshold)%Q /\
      (S i = length interval \/ (threshold <= kl mu (nth (S i) interval 0))%Q)) \/
     ((threshold <= kl mu (nth i interval 0))%Q /\
      (i = 1%nat \/ (kl mu (nth (i - 1) interval 0) < threshold)%Q))).
Proof.
  intros Hn; set (N := length interval).
  set (P := fun i => negb (Qle_bool threshold (kl mu (nth i interval 0)))).
  assert (HP : forall i, P i = true <-> (kl mu (nth i interval 0) < threshold)%Q)
    by (intros i; apply below_true).
  assert (HnP : forall i, P i = false <-> (threshold <= kl mu (nth i interval 0))%Q).
  { intros i; unfold P; rewrite negb_false_iff; apply Qle_bool_iff. }
  destruct (bisect_bracket N P N 0 N) as (pf & [Hp [Hq Hpq]] & Hr & Hrange);
    [repeat split; auto; lia | lia | lia |].
  exists (bisect P N 0 N); split; [exact Hrange|]; split; [reflexivity|].
  destruct Hr as [Hr|Hr]; rewrite Hr in *.
  - left; destruct Hp as [->|[_ Hp]]; [lia|]; split; [apply HP, Hp|].
    destruct Hq as [Hq|Hq]; [left; exact Hq | right; apply HnP, Hq].
  - right; destruct Hq as [Hq|Hq]; [lia|]; split; [apply HnP, Hq|].
    destruct Hp as [->|[_ Hp]]; [left; reflexivity | right].
    replace (S pf - 1)%nat with pf by lia; apply HP, Hp.
Qed.

(** Witness: the grid [0, 1, 2, 3] with [kl(mu, x) = x] and threshold [3/2]. *)
Lemma binary_search_crossing_witness :
  (2 <= length [0; 1; 2; 3]%Q)%nat /\
  exists i, (1 <= i < length [0; 1; 2; 3]%Q)%nat /\
    binary_search 0 [0; 1; 2; 3]%Q (3 # 2) (fun _ x => x) =
      (nth i [0; 1; 2; 3]%Q 0, nth i [0; 1; 2; 3]%Q 0) /\
    (((nth i [0; 1; 2; 3]%Q 0 < 3 # 2)%Q /\
      (S i = length [0; 1; 2; 3]%Q \/ (3 # 2 <= nth (S i) [0; 1; 2; 3]%Q 0)%Q)) \/
     ((3 # 2 <= nth i [0; 1; 2; 3]%Q 0)%Q /\
      (i = 1%nat \/ (nth (i - 1) [0; 1; 2; 3]%Q 0 < 3 # 2)%Q))).
Proof.
  split; [cbn; lia|].
  exact (binary_search_crossing 0 (3 # 2) [0; 1; 2; 3]%Q (fun _ x => x) ltac:(cbn; lia)).
Defined.

(** For an arm with estimated mean [m], the upper confidence bound lies in
    [(m, upper]] when [m < upper] and the lower bound in [[lower, m)] when
    [lower < m]: the search never returns the mean itself.  Both lists have
    one entry per [(mu, pulls)] pair. *)
Theorem get_confidence_interval_range (mu pulls : list Q) (f_t upper lower : Q)
    (kl : option (Q -> Q -> Q)) (j : nat) (m n : Q) :
  nth_error (combine mu pulls) j = Some (m, n) ->
  length (fst (get_confidence_interval mu pulls f_t upper lower kl)) = length (combine mu pulls) /\
  length (snd (get_confidence_interval mu pulls f_t upper lower kl)) = length (combine mu pulls) /\
  ((m < upper)%Q -> exists u,
     nth_error (snd (get_confidence_interval mu pulls f_t upper lower kl)) j = Some u /\
     (m < u <= upper)%Q) /\
  ((lower < m)%Q -> exists l,
     nth_error (fst (get_confidence_interval mu pulls f_t upper lower kl)) j = Some l /\
     (lower <= l < m)%Q).
Proof.
  intros Hj; unfold get_confidence_interval; cbn [fst snd].
  split; [rewrite length_map; reflexivity|].
  split; [rewrite length_map; reflexivity|].
  split; intros Hm; eexists; rewrite nth_error_map, Hj; cbv beta iota; split; try reflexivity.
  - destruct (binary_search_point m (linspace m upper 5000) (np_divide f_t n)
                (match kl with Some k => k | None => kl_default end))
      as [i [Hi E]]; [rewrite linspace_length; lia|].
    rewrite E; cbn [fst]; rewrite linspace_length in Hi.
    apply linspace_inside_up; [lia | exact Hm | exact Hi].
  - destruct (binary_search_point m (linspace m lower 5000) (np_divide f_t n)
                (match kl with Some k => k | None => kl_default end))
      as [i [Hi E]]; [rewrite linspace_length; lia|].
    rewrite E; cbn [fst]; rewrite linspace_length in Hi.
    apply linspace_inside_down; [lia | exact Hm | exact Hi].
Qed.

(** Witness: one arm with mean [1/2] pulled twice, [f_t = 1], the default
    divergence, search range [[-1, 6]]. *)
Lemma get_confidence_interval_range_witness :
  nth_error (combine [1 # 2]%Q [2]%Q) 0 = Some (1 # 2, 2)%Q /\
  exists u, nth_error (snd (get_confidence_interval [1 # 2]%Q [2]%Q 1 6 (-1) None)) 0 = Some u /\
     (1 # 2 < u <= 6)%Q.
Proof.
  split; [reflexivity|].
  exact (proj1 (proj2 (proj2 (get_confidence_interval_range [1 # 2]%Q [2]%Q 1 6 (-1) None 0
                                  (1 # 2) 2 eq_refl))) ltac:(reflexivity)).
Defined.

(** [arreqclose_in_list] finds every array of the list: an array is always
    close to itself. *)
Theorem arreqclose_in_list_In (myarr : list Q) (list_arrays : list (list Q)) :
  In myarr list_arrays -> arreqclose_in_list myarr list_arrays = true.
Proof.
  intros Hin; unfold arreqclose_in_list; apply existsb_exists.
  exists myarr; split; [exact Hin|]; rewrite Nat.eqb_refl, allclose_refl; reflexivity.
Qed.

(** Witness: a two-element list. *)
Lemma arreqclose_in_list_In_witness :
  In [1; 0]%Q [[0; 1]; [1; 0]]%Q /\ arreqclose_in_list [1; 0]%Q [[0; 1]; [1; 0]]%Q = true.
Proof.
  assert (H : In [1; 0]%Q [[0; 1]; [1; 0]]%Q) by (right; left; reflexivity).
  split; [exact H | exact (arreqclose_in_list_In _ _ H)].
Defined.

(** ** [enumerate_all_policies] *)

Section EnumerateFacts.
Local Open Scope Q_scope.

Variable matrix_rank : list (list Q) -> nat.
Variable solve : list (list Q) -> list Q -> list Q.

Lemma enumerate_step_inv (A : list (list Q)) (b : list Q) (P : list Q -> Prop) ps base :
  (matrix_rank (rows A base) = shape1 A ->
   all_le_tol (1 # 100000) (matvecQ A (solve (rows A base) (entries b base))) b = true ->
   P (solve (rows A base) (entries b base))) ->
  ForallOrdPairs (fun x y => arreqclose_in_list y [x] = false) ps /\ Forall P ps ->
  ForallOrdPairs (fun x y => arreqclose_in_list y [x] = false)
    (enumerate_step matrix_rank solve A b ps base) /\
  Forall P (enumerate_step matrix_rank solve A b ps base).
Proof.
  intros HP [Hpairs Hok]; unfold enumerate_step.
  destruct (matrix_rank (rows A base) =? shape1 A)%nat eqn:Hrank; [|auto].
  apply Nat.eqb_eq in Hrank.
  set (x := solve (rows A base) (entries b base)) in *.
  destruct (all_le_tol (1 # 100000) (matvecQ A x) b) eqn:Hle; [|simpl; auto].
  destruct (arreqclose_in_list x ps) eqn:Hdup; simpl; [auto|].
  split.
  - apply ForallOrdPairs_snoc; [exact Hpairs|].
    apply Forall_forall; intros e He; simpl.
    assert (Hn := existsb_false_In _ _ Hdup e He).
    simpl in Hn; rewrite Hn; reflexivity.
  - apply Forall_app; split; [exact Hok|]; constructor; [apply HP; auto | constructor].
Qed.

Lemma arreqclose_in_list_snoc x ps p :
  arreqclose_in_list x ps = true -> arreqclose_in_list x (ps ++ [p]) = true.
Proof.
  intros H; unfold arreqclose_in_list in *; rewrite existsb_app, H; reflexivity.
Qed.

Lemma arreqclose_in_list_self x ps : arreqclose_in_list x (ps ++ [x]) = true.
Proof.
  unfold arreqclose_in_list; rewrite existsb_app; simpl.
  rewrite Nat.eqb_refl, allclose_refl, orb_true_r; reflexivity.
Qed.

Lemma enumerate_step_keeps A b x ps base :
  arreqclose_in_list x ps = true ->
  arreqclose_in_list x (enumerate_step matrix_rank solve A b ps base) = true.
Proof.
  intros H; unfold enumerate_step.
  destruct (_ =? _)%nat; [|exact H].
  destruct (_ && _); [apply arreqclose_in_list_snoc|]; exact H.
Qed.

End EnumerateFacts.

(** [enumerate_all_policies] returns policies that satisfy [A x <= b + 1e-5],
    that are pairwise not approximately equal, and that each solve a basis
    of [A.shape[1]] rows of full rank: with numpy's contract for
    [np.linalg.solve], each policy is tight on the rows of its basis. *)
Theorem enumerate_all_policies_sound
    (matrix_rank : list (list Q) -> nat) (solve : list (list Q) -> list Q -> list Q)
    (solve_spec : forall B y, matrix_rank B = length B -> length y = length B ->
                  Forall2 Qeq (matvecQ B (solve B y)) y)
    (A : list (list Q)) (b : list Q) :
  ForallOrdPairs (fun x y => arreqclose_in_list y [x] = false)
    (enumerate_all_policies matrix_rank solve A b) /\
  Forall (fun p =>
      all_le_tol (1 # 100000) (matvecQ A p) b = true /\
      exists base, In base (combinations (shape1 A) (seq 0 (length A))) /\
        matrix_rank (rows A base) = shape1 A /\
        p = solve (rows A base) (entries b base) /\
        Forall (fun r => (dotQ (nth r A []) p == nth r b 0)%Q) base)
    (enumerate_all_policies matrix_rank solve A b).
Proof.
  unfold enumerate_all_policies.
  apply fold_left_inv; [split; constructor|].
  intros ps base Hbase Hinv.
  apply enumerate_step_inv; [|exact Hinv].
  intros Hrank Hle; split; [exact Hle|].
  exists base; split; [exact Hbase|]; split; [exact Hrank|]; split; [reflexivity|].
  apply Forall_forall; intros r Hr.
  assert (Hlen := combinations_length _ _ _ Hbase).
  assert (Hs := solve_spec (rows A base) (entries b base)).
  unfold rows, entries in Hs; rewrite !length_map in Hs.
  specialize (Hs ltac:(unfold rows in Hrank; lia) eq_refl).
  unfold matvecQ in Hs; rewrite map_map in Hs.
  exact (Forall2_map_same _ (fun r => dotQ (nth r A []) _) (fun r => nth r b 0) base Hs r Hr).
Qed.

(** Witness: the two-arm simplex with Cramer's rule; its two vertices. *)
Lemma enumerate_all_policies_sound_witness :
  enumerate_all_policies rank2 solve2 simplex2_A simplex2_b = [[0; 1]; [1; 0]]%Q /\
  ForallOrdPairs (fun x y => arreqclose_in_list y [x] = false)
    (enumerate_all_policies rank2 solve2 simplex2_A simplex2_b) /\
  Forall (fun p =>
      all_le_tol (1 # 100000) (matvecQ simplex2_A p) simplex2_b = true /\
      exists base, In base (combinations (shape1 simplex2_A) (seq 0 (length simplex2_A))) /\
        rank2 (rows simplex2_A base) = shape1 simplex2_A /\
        p = solve2 (rows simplex2_A base) (entries simplex2_b base) /\
        Forall (fun r => (dotQ (nth r simplex2_A []) p == nth r simplex2_b 0)%Q) base)
    (enumerate_all_policies rank2 solve2 simplex2_A simplex2_b).
Proof.
  split; [vm_compute; reflexivity|].
  exact (enumerate_all_policies_sound rank2 solve2 rank2_solve2_spec simplex2_A simplex2_b).
Defined.

(** Nothing is lost but near-duplicates: the solution of every full-rank
    basis that satisfies [A x <= b + 1e-5] is approximately equal to one of
    the returned policies. *)
Theorem enumerate_all_policies_complete
    (matrix_rank : list (list Q) -> nat) (solve : list (list Q) -> list Q -> list Q)
    (A : list (list Q)) (b : list Q) (base : list nat) :
  In base (combinations (shape1 A) (seq 0 (length A))) ->
  matrix_rank (rows A base) = shape1 A ->
  all_le_tol (1 # 100000) (matvecQ A (solve (rows A base) (entries b base))) b = true ->
  arreqclose_in_list (solve (rows A base) (entries b base))
    (enumerate_all_policies matrix_rank solve A b) = true.
Proof.
  intros Hbase Hrank Hle; unfold enumerate_all_policies.
  apply in_split in Hbase as (l1 & l2 & ->).
  rewrite fold_left_app; cbn [fold_left].
  set (x := solve (rows A base) (entries b base)) in *.
  apply (fold_left_inv (fun ps => arreqclose_in_list x ps = true)).
  - set (ps := fold_left _ l1 []).
    unfold enumerate_step; rewrite Hrank, Nat.eqb_refl; fold x; rewrite Hle; cbn [andb].
    destruct (arreqclose_in_list x ps) eqn:Hdup; cbn [negb]; [exact Hdup|].
    apply arreqclose_in_list_self.
  - intros ps base' _ H; apply enumerate_step_keeps; exact H.
Qed.

(** Witness: the basis [{0, 2}] of the two-arm simplex gives [(0, 1)]. *)
Lemma enumerate_all_policies_complete_witness :
  In [0; 2]%nat (combinations (shape1 simplex2_A) (seq 0 (length simplex2_A))) /\
  rank2 (rows simplex2_A [0; 2]%nat) = shape1 simplex2_A /\
  all_le_tol (1 # 100000)
    (matvecQ simplex2_A (solve2 (rows simplex2_A [0; 2]%nat) (entries simplex2_b [0; 2]%nat)))
    simplex2_b = true /\
  arreqclose_in_list (solve2 (rows simplex2_A [0; 2]%nat) (entries simplex2_b [0; 2]%nat))
    (enumerate_all_policies rank2 solve2 simplex2_A simplex2_b) = true.
Proof.
  assert (Hin : In [0; 2]%nat (combinations (shape1 simplex2_A) (seq 0 (length simplex2_A))))
    by (cbn; tauto).
  split; [exact Hin|]; split; [vm_compute; reflexivity|]; split; [vm_compute; reflexivity|].
  exact (enumerate_all_policies_complete rank2 solve2 simplex2_A simplex2_b [0; 2]%nat Hin
           ltac:(vm_compute; reflexivity) ltac:(vm_compute; reflexivity)).
Defined.

(** ** The stacked systems of [get_policy] and [project_on_feasible] *)

Section StackedFacts.
Local Open Scope Q_scope.

Lemma forallb_combine_app {A B} (f : A * B -> bool) l1 l2 m1 m2 :
  length l1 = length m1 ->
  forallb f (combine (l1 ++ l2) (m1 ++ m2)) = forallb f (combine l1 m1) && forallb f (combine l2 m2).
Proof.
  revert m1; induction l1 as [|a l1 IH]; intros [|c m1] H; simpl in *; try lia; [reflexivity|].
  rewrite IH by lia; apply andb_assoc.
Qed.

Lemma all_le_tol_app tol A1 A2 b1 b2 x :
  length A1 = length b1 ->
  all_le_tol tol (matvecQ (A1 ++ A2) x) (b1 ++ b2) =
  all_le_tol tol (matvecQ A1 x) b1 && all_le_tol tol (matvecQ A2 x) b2.
Proof.
  intros H; unfold all_le_tol, matvecQ; rewrite map_app.
  apply forallb_combine_app; rewrite length_map; exact H.
Qed.

Lemma all_le_tol_nth tol Ax b :
  length Ax = length b ->
  (all_le_tol tol Ax b = true <-> forall i, (i < length b)%nat -> nth i Ax 0 <= nth i b 0 + tol).
Proof.
  revert b; induction Ax as [|a Ax IH]; intros [|c b] H; simpl in *; try lia.
  - split; [intros _ i Hi; lia | reflexivity].
  - unfold all_le_tol in *; cbn [combine forallb]; rewrite andb_true_iff, Qle_bool_iff, IH by lia.
    split.
    + intros [H0 Hr] [|i] Hi; [exact H0 | apply Hr; lia].
    + intros Hall; split; [apply (Hall O); lia | intros i Hi; apply (Hall (S i)); lia].
Qed.

Lemma nth_matvecQ A x i : (i < length A)%nat -> nth i (matvecQ A x) 0 = dotQ (nth i A []) x.
Proof.
  intros Hi; unfold matvecQ.
  rewrite (nth_indep _ 0 (dotQ [] x)) by (rewrite length_map; exact Hi).
  apply (map_nth (fun row => dotQ row x)).
Qed.

Lemma dotQ_opp r x : dotQ (map Qopp r) x == - dotQ r x.
Proof.
  revert x; induction r as [|a r IH]; intros [|c x]; unfold dotQ; simpl; try reflexivity.
  fold (dotQ (map Qopp r) x); fold (dotQ r x); rewrite IH; ring.
Qed.

Lemma dotQ_ones x : dotQ (repeat 1 (length x)) x == sumQ x.
Proof.
  induction x as [|a x IH]; unfold dotQ; simpl; [reflexivity|].
  fold (dotQ (repeat 1 (length x)) x); rewrite IH; unfold sumQ; ring.
Qed.

Lemma dotQ_unit x : forall k i,
  dotQ (map (fun j => if (i =? j)%nat then 1 else 0) (seq k (length x))) x ==
  (if ((k <=? i) && (i <? k + length x))%nat then nth (i - k) x 0 else 0).
Proof.
  induction x as [|a x IH]; intros k i; unfold dotQ; cbn [length seq map combine].
  - simpl; destruct ((k <=? i) && (i <? k + 0))%nat eqn:E; [|reflexivity].
    apply andb_true_iff in E as [E1 E2]; apply Nat.leb_le in E1; apply Nat.ltb_lt in E2; lia.
  - cbn [map fold_right]; fold (dotQ (map (fun j => if (i =? j)%nat then 1 else 0) (seq (S k) (length x))) x).
    rewrite IH.
    destruct (Nat.lt_trichotomy i k) as [Hlt|[->|Hgt]].
    + rewrite (proj2 (Nat.eqb_neq i k)) by lia.
      rewrite (proj2 (Nat.leb_gt (S k) i)) by lia; rewrite (proj2 (Nat.leb_gt k i)) by lia.
      simpl; ring.
    + rewrite Nat.eqb_refl, (proj2 (Nat.leb_gt (S k) k)) by lia.
      rewrite Nat.leb_refl, (proj2 (Nat.ltb_lt k (k + S (length x)))) by lia.
      rewrite Nat.sub_diag; simpl; ring.
    + rewrite (proj2 (Nat.eqb_neq i k)) by lia.
      rewrite (proj2 (Nat.leb_le (S k) i)) by lia; rewrite (proj2 (Nat.leb_le k i)) by lia.
      replace (i <? S k + length x)%nat with (i <? k + S (length x))%nat
        by (f_equal; lia).
      destruct (i <? k + S (length x))%nat; simpl; [|ring].
      replace (i - k)%nat with (S (i - S k)) by lia; simpl; ring.
Qed.

Lemma eye_row_dot n x i :
  length x = n -> (i < n)%nat -> dotQ (nth i (eye n) []) x == nth i x 0.
Proof.
  intros Hx Hi; unfold eye.
  rewrite (nth_map_seq (fun i => map (fun j => if (i =? j)%nat then 1 else 0) (seq 0 n))) by exact Hi.
  subst n; rewrite dotQ_unit.
  rewrite (proj2 (Nat.leb_le 0 i)) by lia; rewrite (proj2 (Nat.ltb_lt i (0 + length x))) by lia.
  rewrite Nat.sub_0_r; reflexivity.
Qed.

Lemma length_eye n : length (eye n) = n.
Proof. unfold eye; rewrite length_map, length_seq; reflexivity. Qed.

Lemma Forall_nth_Q (P : Q -> Prop) x :
  Forall P x <-> forall i, (i < length x)%nat -> P (nth i x 0).
Proof.
  rewrite Forall_nth; split; intros H i.
  - intros Hi; apply H; exact Hi.
  - intros d Hi; rewrite (nth_indep _ d 0) by exact Hi; apply H; exact Hi.
Qed.

Lemma nth_neg_rows A i : nth i (neg_rows A) [] = map Qopp (nth i A []).
Proof. exact (map_nth (map Qopp) A [] i). Qed.

Lemma neg_eye_block n x :
  length x = n ->
  (all_le_tol 0 (matvecQ (neg_rows (eye n)) x) (repeat 0 n) = true <-> Forall (fun a => 0 <= a) x).
Proof.
  intros Hx; rewrite all_le_tol_nth
    by (unfold matvecQ, neg_rows; rewrite !length_map, length_eye, repeat_length; reflexivity).
  rewrite Forall_nth_Q, repeat_length; split; intros H i Hi.
  - specialize (H i ltac:(lia)).
    rewrite nth_matvecQ in H by (unfold neg_rows; rewrite length_map, length_eye; lia).
    rewrite nth_neg_rows in H.
    rewrite dotQ_opp, eye_row_dot in H by lia; rewrite nth_repeat in H; Lqa.lra.
  - rewrite nth_matvecQ by (unfold neg_rows; rewrite length_map, length_eye; lia).
    rewrite nth_neg_rows.
    rewrite dotQ_opp, eye_row_dot by lia; rewrite nth_repeat.
    specialize (H i ltac:(lia)); Lqa.lra.
Qed.

Lemma eye_block n x :
  length x = n ->
  (all_le_tol 0 (matvecQ (eye n) x) (repeat 1 n) = true <-> Forall (fun a => a <= 1) x).
Proof.
  intros Hx; rewrite all_le_tol_nth
    by (unfold matvecQ; rewrite !length_map, length_eye, repeat_length; reflexivity).
  rewrite Forall_nth_Q, repeat_length; split; intros H i Hi.
  - specialize (H i ltac:(lia)).
    rewrite nth_matvecQ in H by (rewrite length_eye; lia).
    rewrite eye_row_dot in H by lia; rewrite nth_repeat_lt in H by lia; Lqa.lra.
  - rewrite nth_matvecQ by (rewrite length_eye; lia).
    rewrite eye_row_dot by lia; rewrite nth_repeat_lt by lia.
    specialize (H i ltac:(lia)); Lqa.lra.
Qed.

Lemma simplex_block n x :
  length x = n ->
  (all_le_tol 0 (matvecQ ([repeat 1 n] ++ [map Qopp (repeat 1 n)]) x) ([1] ++ [-1]) = true <->
   sumQ x == 1).
Proof.
  intros <-; unfold all_le_tol, matvecQ; cbn [app map combine forallb].
  rewrite andb_true_r, andb_true_iff, !Qle_bool_iff, dotQ_opp, dotQ_ones.
  split; [intros [H1 H2]; Lqa.lra | intros H; split; Lqa.lra].
Qed.

Lemma sumQ_ge_elem x : Forall (fun a => 0 <= a) x -> Forall (fun a => a <= sumQ x) x.
Proof.
  induction x as [|a x IH]; intros H; [constructor|].
  inversion H as [|? ? Ha Hx]; subst.
  assert (Hs : 0 <= sumQ x).
  { clear - Hx; induction Hx as [|c x Hc _ IH]; unfold sumQ in *; simpl; [apply Qle_refl | Lqa.lra]. }
  constructor; unfold sumQ at 1; simpl; fold (sumQ x); [Lqa.lra|].
  specialize (IH Hx); eapply Forall_impl; [|exact IH]; intros c Hc; simpl in Hc; Lqa.lra.
Qed.

End StackedFacts.

(** [get_policy] solves its LP over [{x : A x <= b, x >= 0, sum(x) = 1}]
    (the probability simplex when [A is None]): a point with one coordinate
    per arm satisfies the stacked system it returns in [aux] exactly when it
    lies in that set, and [aux["slack"]] is the LP's slack vector. *)
Theorem get_policy_feasible_set
    (linprog : list Q -> list (list Q) -> list Q -> option lp_result)
    (mu : list Q) (A : option (list (list Q))) (b : list Q)
    (res : lp_result) (A' : list (list Q)) (b' slack : list Q) :
  match A with Some A0 => length b = length A0 | None => True end ->
  get_policy linprog mu A b = Ok (res, (A', b', slack)) ->
  slack = lp_slack res /\
  forall x, length x = length mu ->
    (all_le_tol 0 (matvecQ A' x) b' = true <->
     Forall (fun a => 0 <= a)%Q x /\ (sumQ x == 1)%Q /\
     match A with Some A0 => all_le_tol 0 (matvecQ A0 x) b = true | None => True end).
Proof.
  intros Hb; unfold get_policy.
  destruct (get_policy_system (length mu) A b) as [A1 b1] eqn:Hsys.
  destruct (linprog _ A1 b1) as [r|]; [|discriminate].
  intros H; injection H as <- <- <- <-; split; [reflexivity|].
  intros x Hx.
  assert (Hbox : all_le_tol 0 (matvecQ (neg_rows (eye (length mu)) ++
                   [repeat 1 (length mu)] ++ [map Qopp (repeat 1 (length mu))]) x)
                   (repeat 0 (length mu) ++ [1] ++ [-1]) = true <->
                 Forall (fun a => 0 <= a)%Q x /\ (sumQ x == 1)%Q).
  { rewrite all_le_tol_app
      by (unfold neg_rows; rewrite length_map, length_eye, repeat_length; reflexivity).
    rewrite andb_true_iff, neg_eye_block, simplex_block by exact Hx; tauto. }
  unfold get_policy_system in Hsys; destruct A as [A0|]; injection Hsys as <- <-.
  - rewrite all_le_tol_app by (symmetry; exact Hb).
    rewrite andb_true_iff, Hbox; tauto.
  - rewrite Hbox; tauto.
Qed.

(** An LP oracle that returns the vertex [(1, 0)] with zero slack. *)
Definition linprog_const (_ : list Q) (A : list (list Q)) (_ : list Q) : option lp_result :=
  Some {| lp_x := [1; 0]%Q; lp_slack := repeat 0%Q (length A); lp_success := true |}.

(** Witness: two arms under the constraint [x_0 <= 1/2]. *)
Lemma get_policy_feasible_set_witness :
  get_policy linprog_const [1; 0]%Q (Some [[1; 0]]%Q) [1 # 2]%Q =
    Ok ({| lp_x := [1; 0]%Q; lp_slack := repeat 0%Q 5; lp_success := true |},
        (fst (get_policy_system 2 (Some [[1; 0]]%Q) [1 # 2]%Q),
         snd (get_policy_system 2 (Some [[1; 0]]%Q) [1 # 2]%Q), repeat 0%Q 5)) /\
  (repeat 0%Q 5 = repeat 0%Q 5 /\
   forall x, length x = length [1; 0]%Q ->
    (all_le_tol 0 (matvecQ (fst (get_policy_system 2 (Some [[1; 0]]%Q) [1 # 2]%Q)) x)
       (snd (get_policy_system 2 (Some [[1; 0]]%Q) [1 # 2]%Q)) = true <->
     Forall (fun a => 0 <= a)%Q x /\ (sumQ x == 1)%Q /\
     all_le_tol 0 (matvecQ [[1; 0]]%Q x) [1 # 2]%Q = true)).
Proof.
  assert (H : get_policy linprog_const [1; 0]%Q (Some [[1; 0]]%Q) [1 # 2]%Q =
    Ok ({| lp_x := [1; 0]%Q; lp_slack := repeat 0%Q 5; lp_success := true |},
        (fst (get_policy_system 2 (Some [[1; 0]]%Q) [1 # 2]%Q),
         snd (get_policy_system 2 (Some [[1; 0]]%Q) [1 # 2]%Q), repeat 0%Q 5)))
    by reflexivity.
  split; [exact H|].
  exact (get_policy_feasible_set linprog_const [1; 0]%Q (Some [[1; 0]]%Q) [1 # 2]%Q _ _ _ _
           eq_refl H).
Defined.

(** The constraint [project_on_feasible] hands to the optimiser describes
    [{x : A x <= b, x >= 0, sum(x) = 1}] (the simplex when [A is None]); its
    rows [x <= 1] are implied by the others. *)
Theorem stacked_system_feasible_set (n : nat) (A : option (list (list Q))) (b x : list Q) :
  match A with Some A0 => length b = length A0 | None => True end ->
  length x = n ->
  (all_le_tol 0 (matvecQ (fst (stacked_system n A b)) x) (snd (stacked_system n A b)) = true <->
   Forall (fun a => 0 <= a)%Q x /\ (sumQ x == 1)%Q /\
   match A with Some A0 => all_le_tol 0 (matvecQ A0 x) b = true | None => True end).
Proof.
  intros Hb Hx.
  assert (Hbox : all_le_tol 0 (matvecQ (eye n ++ neg_rows (eye n) ++
                   [repeat 1 n] ++ [map Qopp (repeat 1 n)]) x)
                   (repeat 1 n ++ repeat 0 n ++ [1] ++ [-1]) = true <->
                 Forall (fun a => 0 <= a)%Q x /\ (sumQ x == 1)%Q).
  { rewrite all_le_tol_app by (rewrite length_eye, repeat_length; reflexivity).
    rewrite all_le_tol_app
      by (unfold neg_rows; rewrite length_map, length_eye, repeat_length; reflexivity).
    rewrite !andb_true_iff, eye_block, neg_eye_block, simplex_block by exact Hx.
    split; [tauto|]; intros [Hnn Hs]; split; [|tauto].
    apply Forall_forall; intros a Ha.
    assert (H := proj1 (Forall_forall _ _) (sumQ_ge_elem x Hnn) a Ha); simpl in H.
    rewrite Hs in H; exact H. }
  unfold stacked_system; destruct A as [A0|]; cbn [fst snd].
  - rewrite all_le_tol_app by (symmetry; exact Hb).
    rewrite andb_true_iff, Hbox; tauto.
  - rewrite Hbox; tauto.
Qed.

(** Witness: two arms under [x_0 <= 1/2] and the point [(1/2, 1/2)]. *)
Lemma stacked_system_feasible_set_witness :
  length [1 # 2]%Q = length [[1; 0]]%Q /\ length [1 # 2; 1 # 2]%Q = 2%nat /\
  (all_le_tol 0 (matvecQ (fst (stacked_system 2 (Some [[1; 0]]%Q) [1 # 2]%Q)) [1 # 2; 1 # 2]%Q)
     (snd (stacked_system 2 (Some [[1; 0]]%Q) [1 # 2]%Q)) = true <->
   Forall (fun a => 0 <= a)%Q [1 # 2; 1 # 2]%Q /\ (sumQ [1 # 2; 1 # 2]%Q == 1)%Q /\
   all_le_tol 0 (matvecQ [[1; 0]]%Q [1 # 2; 1 # 2]%Q) [1 # 2]%Q = true).
Proof.
  split; [reflexivity|]; split; [reflexivity|].
  exact (stacked_system_feasible_set 2 (Some [[1; 0]]%Q) [1 # 2]%Q [1 # 2; 1 # 2]%Q
           eq_refl eq_refl).
Defined.

(** ** [solve_game_lb] *)

Section GameLBFacts.
Variable minimize_proj : list Q -> list Q -> list (list Q) -> list Q -> option (list Q).
Variable minimize_game : option Q -> list Q -> alloc_domain -> opt_result.
Variable uniform_draw : nat -> list Q.

Lemma sweep_loop_lb dom sweep : forall count last, sweep <> [] ->
  (r <- sweep_loop minimize_proj minimize_game uniform_draw dom count sweep last ;;
   match r with
   | None => Err UnboundLocalError
   | Some res => if res_success res then Ok (res_x res, - res_fun res)%Q else Err ValueError
   end) =
  match first_success minimize_proj minimize_game uniform_draw dom count sweep with
  | Ok (Some p) => Ok p
  | Ok None => Err ValueError
  | Err e => Err e
  end.
Proof.
  induction sweep as [|tol rest IH]; intros count last Hne; [congruence|].
  cbn [sweep_loop first_success].
  destruct (start_point minimize_proj uniform_draw dom count) as [x0|e]; cbn [bind]; [|reflexivity].
  destruct (res_success (minimize_game tol x0 dom)) eqn:Hs; cbn [bind]; [rewrite Hs; reflexivity|].
  destruct rest as [|t' rest'].
  - cbn; rewrite Hs; reflexivity.
  - apply IH; discriminate.
Qed.

End GameLBFacts.

(** Without a starting point, [solve_game_lb] returns the allocation and
    value of the first rung of the tolerance ladder whose optimiser
    succeeds, and raises [ValueError] when every rung fails (where
    [solve_game] returns [None]); an error of a projected starting point
    propagates. *)
Theorem solve_game_lb_first_success minimize_proj minimize_game uniform_draw dom tol :
  solve_game_lb minimize_proj minimize_game uniform_draw dom tol None =
  match first_success minimize_proj minimize_game uniform_draw dom 0 (tol_ladder tol) with
  | Ok (Some p) => Ok p
  | Ok None => Err ValueError
  | Err e => Err e
  end.
Proof.
  unfold solve_game_lb; apply sweep_loop_lb.
  unfold tol_ladder; destruct tol as [t|]; [destruct (negb _)|]; discriminate.
Qed.

(** ** [best_response] and [best_response_lb] *)

Section ArgminFacts.
Local Open Scope R_scope.

Definition argmin_inv (p : list R) (best : nat) (m : R) : Prop :=
  (best < length p)%nat /\ nth best p 0 = m /\
  (forall j, (j < length p)%nat -> m <= nth j p 0) /\
  (forall j, (j < best)%nat -> m < nth j p 0).

Lemma argmin_from_inv r : forall p best m,
  argmin_inv p best m ->
  argmin_inv (p ++ r) (argmin_from r (length p) best m) (fold_left Rmin r m).
Proof.
  induction r as [|a r IH]; intros p best m Hinv; [rewrite app_nil_r; exact Hinv|].
  destruct Hinv as (Hb & Hm & Hle & Hlt).
  replace (p ++ a :: r) with ((p ++ [a]) ++ r) by (rewrite <- app_assoc; reflexivity).
  cbn [argmin_from fold_left].
  destruct (Rlt_dec a m) as [Ha|Ha].
  - rewrite Rmin_right by lra.
    replace (S (length p)) with (length (p ++ [a])) by (rewrite length_app; simpl; lia).
    apply IH; unfold argmin_inv; rewrite length_app; simpl; repeat split.
    + lia.
    + rewrite app_nth2, Nat.sub_diag by lia; reflexivity.
    + intros j Hj; destruct (Nat.lt_ge_cases j (length p)) as [Hj'|Hj'].
      * rewrite app_nth1 by lia; specialize (Hle j Hj'); lra.
      * rewrite app_nth2 by lia; replace (j - length p)%nat with O by lia; simpl; lra.
    + intros j Hj; rewrite app_nth1 by lia; specialize (Hle j Hj); lra.
  - rewrite Rmin_left by lra.
    replace (S (length p)) with (length (p ++ [a])) by (rewrite length_app; simpl; lia).
    apply IH; unfold argmin_inv; rewrite length_app; simpl; repeat split.
    + lia.
    + rewrite app_nth1 by lia; exact Hm.
    + intros j Hj; destruct (Nat.lt_ge_cases j (length p)) as [Hj'|Hj'].
      * rewrite app_nth1 by lia; apply Hle, Hj'.
      * rewrite app_nth2 by lia; replace (j - length p)%nat with O by lia; simpl; lra.
    + intros j Hj; rewrite app_nth1 by lia; apply Hlt, Hj.
Qed.

(** [np.min] and [np.argmin] agree: the first index of the minimum. *)
Lemma np_min_argmin x v k :
  np_min x = Ok v -> np_argmin x = Ok k ->
  (k < length x)%nat /\ nth k x 0 = v /\
  (forall j, (j < length x)%nat -> v <= nth j x 0) /\
  (forall j, (j < k)%nat -> v < nth j x 0).
Proof.
  intros H1 H2; destruct x as [|a r]; [discriminate H1|]; cbn [np_min np_argmin] in *.
  injection H1 as <-; injection H2 as <-.
  apply (argmin_from_inv r [a] 0 a).
  unfold argmin_inv; simpl; split; [lia|]; split; [reflexivity|]; split.
  - intros j Hj; replace j with O by lia; apply Rle_refl.
  - intros j Hj; lia.
Qed.

Lemma np_argmin_ok x : x <> [] -> exists k, np_argmin x = Ok k.
Proof. destruct x; [congruence|]; eexists; reflexivity. Qed.

Lemma np_min_ok x : x <> [] -> exists v, np_min x = Ok v.
Proof. destruct x; [congruence|]; eexists; reflexivity. Qed.

Lemma rsequence_map_nth {A B} (f : A -> result B) l ys :
  rsequence (map f l) = Ok ys ->
  length ys = length l /\ forall i a, nth_error l i = Some a ->
    exists y, nth_error ys i = Some y /\ f a = Ok y.
Proof.
  revert ys; induction l as [|a l IH]; intros ys H; cbn in H.
  - injection H as <-; split; [reflexivity|]; intros [|i] a' Hi; discriminate.
  - destruct (f a) as [y|e] eqn:Hf; cbn [bind] in H; [|discriminate].
    destruct (rsequence (map f l)) as [s|e] eqn:Hs; cbn [bind] in H; [|discriminate].
    injection H as <-; destruct (IH s eq_refl) as [Hl Hn]; split; [simpl; lia|].
    intros [|i] a' Hi; simpl in Hi.
    + injection Hi as <-; exists y; split; [reflexivity | exact Hf].
    + apply Hn, Hi.
Qed.

Lemma ofinite_nth {A} (l : list (option A)) ps :
  ofinite l = Some ps ->
  length ps = length l /\ forall i o, nth_error l i = Some o ->
    exists a, nth_error ps i = Some a /\ o = Some a.
Proof.
  revert ps; induction l as [|o l IH]; intros ps H; cbn in H.
  - injection H as <-; split; [reflexivity|]; intros [|i] o' Hi; discriminate.
  - destruct o as [a|]; cbn in H; [|discriminate].
    destruct (ofinite l) as [s|] eqn:Hs; cbn in H; [|discriminate].
    injection H as <-; destruct (IH s eq_refl) as [Hl Hn]; split; [simpl; lia|].
    intros [|i] o' Hi; simpl in Hi.
    + injection Hi as <-; exists a; split; reflexivity.
    + apply Hn, Hi.
Qed.

Lemma nth_map_of_nth_error {A B} (f : A -> B) (l : list A) k a d :
  nth_error l k = Some a -> nth k (map f l) d = f a.
Proof. intros H; apply nth_error_nth; rewrite nth_error_map, H; reflexivity. Qed.

End ArgminFacts.

Section ProjectionFacts.
Local Open Scope R_scope.

(** [gaussian_projection] returns finite values for non-negative weights,
    [sigma <> 0] and a nonempty constraint matrix. *)
Lemma gaussian_projection_some minimize_l (w mu pi1 pi2 l0 : list R)
    (A : list (list R)) (b : list R) (sigma : R) :
  Forall (fun a => 0 <= a) w -> sigma <> 0 -> A <> [] -> length b = length A ->
  exists lam val x, gaussian_projection minimize_l w mu pi1 pi2 l0 A b sigma = Ok (Some (lam, val, x)).
Proof.
  intros Hw Hs HA Hb.
  set (v := vmap2 Rminus pi1 pi2).
  set (N := sumR (vmap2 (fun a c => a ^ 2 / c) v (map (fun a => a + PRECISION) w))).
  assert (HwP : Forall (fun c => c <> 0) (map (fun a => a + PRECISION) w)) by (apply floored_nz, Hw).
  assert (HNP : N + PRECISION <> 0).
  { assert (0 <= N); [|pose proof PRECISION_pos; lra].
    apply sumR_sq_div_nonneg, Forall_map; eapply Forall_impl; [|exact Hw].
    intros a Ha; simpl; pose proof PRECISION_pos; lra. }
  unfold gaussian_projection; fold v.
  destruct (np_min (vmap2 Rminus (matvecR A w) b)) as [gmin|e] eqn:Hmin.
  2:{ exfalso; destruct A as [|r A]; [congruence|]; destruct b as [|c b]; [discriminate|].
      discriminate Hmin. }
  cbn [bind].
  rewrite (osequence_vmap2 _ (fun a c => a ^ 2 / c)) by (auto using odiv_nz).
  cbn [obind]; fold N; rewrite odiv_nz by exact HNP; cbn [obind].
  rewrite (osequence_vmap2 _ (fun a c => dotR mu v / (N + PRECISION) * a / c)) by (auto using odiv_nz).
  cbn [obind]; rewrite odiv_nz by (apply Rmult_integral_contrapositive; split; [lra | apply pow_nonzero, Hs]).
  cbn [obind]; do 3 eexists; reflexivity.
Qed.

End ProjectionFacts.

Section BestResponseFacts.
Local Open Scope R_scope.

(** [best_response] (Gaussian) returns the smallest value among the
    neighbours' projections together with that projection's instance and
    multipliers, taken from the first neighbour that attains it. *)
Theorem best_response_gaussian_min minimize_l minimize_b (w mu pi : list R)
    (neighbors : list (list R)) (l0 : list R) (A : list (list R)) (b : list R) (sigma v : R)
    (inst l : list R) :
  best_response minimize_l minimize_b w mu pi neighbors l0 A b sigma Gaussian = Ok (Some (v, inst, l)) ->
  exists k nb, nth_error neighbors k = Some nb /\
    gaussian_projection minimize_l w mu pi nb l0 A b sigma = Ok (Some (inst, v, l)) /\
    forall j nb' inst' v' l', nth_error neighbors j = Some nb' ->
      gaussian_projection minimize_l w mu pi nb' l0 A b sigma = Ok (Some (inst', v', l')) ->
      (v <= v')%R /\ ((j < k)%nat -> (v < v')%R).
Proof.
  unfold best_response.
  destruct (rsequence _) as [projs|e] eqn:Hproj; cbn [bind]; [|discriminate].
  apply rsequence_map_nth in Hproj as [Hlen Hproj].
  unfold select3; destruct (ofinite projs) as [ps|] eqn:Hps; [|discriminate].
  apply ofinite_nth in Hps as [Hlen' Hps].
  destruct (np_min _) as [v0|e] eqn:Hmin; cbn [bind]; [|discriminate].
  destruct (np_argmin _) as [k|e] eqn:Harg; cbn [bind]; [|discriminate].
  intros H; injection H as <- <- <-.
  destruct (np_min_argmin _ _ _ Hmin Harg) as (Hk & Hkv & Hle & Hlt).
  rewrite length_map in Hk.
  destruct (nth_error neighbors k) as [nb|] eqn:Hnb;
    [|apply nth_error_None in Hnb; lia].
  destruct (Hproj k nb Hnb) as (y & Hy & Hf).
  destruct (Hps k y Hy) as ([[lam vk] lk] & Hk' & ->).
  exists k, nb; split; [exact Hnb|]; split.
  - rewrite Hf; rewrite !(nth_map_of_nth_error _ _ _ _ _ Hk').
    rewrite (nth_map_of_nth_error _ _ _ _ _ Hk') in Hkv; subst v0; reflexivity.
  - intros j nb' inst' v' l' Hj Hf'.
    destruct (Hproj j nb' Hj) as (y' & Hy' & Hf2); rewrite Hf' in Hf2; injection Hf2 as <-.
    destruct (Hps j _ Hy') as (a & Ha & Ea); injection Ea as <-.
    assert (Hjl : (j < length ps)%nat) by (apply nth_error_Some; congruence).
    assert (E : nth j (map (fun '(_, v, _) => v) ps) 0%R = v')
      by (rewrite (nth_map_of_nth_error _ _ _ _ _ Ha); reflexivity).
    split.
    + rewrite <- E; apply Hle; rewrite length_map; exact Hjl.
    + intros Hjk; rewrite <- E; apply Hlt, Hjk.
Qed.

(** Witness: one neighbour, one arm. *)
Lemma best_response_gaussian_min_witness :
  exists v inst l,
    best_response (fun _ l0 _ => l0) (fun _ x0 _ => x0) [1] [1] [1] [[0]] [0] [[1]] [1] 1 Gaussian
      = Ok (Some (v, inst, l)) /\
    exists k nb, nth_error [[0]] k = Some nb /\
      gaussian_projection (fun _ l0 _ => l0) [1] [1] [1] nb [0] [[1]] [1] 1 = Ok (Some (inst, v, l)) /\
      forall j nb' inst' v' l', nth_error [[0]] j = Some nb' ->
        gaussian_projection (fun _ l0 _ => l0) [1] [1] [1] nb' [0] [[1]] [1] 1 = Ok (Some (inst', v', l')) ->
        (v <= v')%R /\ ((j < k)%nat -> (v < v')%R).
Proof.
  destruct (gaussian_projection_some (fun _ l0 _ => l0) [1] [1] [1] [0] [0] [[1]] [1] 1)
    as (lam & val & x & E); [repeat constructor; lra | exact R1_neq_R0 | discriminate | reflexivity |].
  assert (H : best_response (fun _ l0 _ => l0) (fun _ x0 _ => x0) [1] [1] [1] [[0]] [0] [[1]] [1] 1 Gaussian
                = Ok (Some (val, lam, x)))
    by (unfold best_response; cbn [map rsequence]; rewrite E; reflexivity).
  exists val, lam, x; split; [exact H|].
  exact (best_response_gaussian_min (fun _ l0 _ => l0) (fun _ x0 _ => x0) [1] [1] [1] [[0]] [0]
           [[1]] [1] 1 val lam x H).
Defined.

(** [best_response_lb] (Gaussian) returns the smallest value among the
    neighbours' [gaussian_projection_lb] values with the instance of the
    first neighbour that attains it. *)
Theorem best_response_lb_gaussian_min minimize_l minimize_b (w mu pi : list R)
    (neighbors : list (list R)) (sigma v : R) (inst : list R) :
  best_response_lb minimize_l minimize_b w mu pi neighbors sigma Gaussian = Ok (Some (v, inst)) ->
  exists k nb, nth_error neighbors k = Some nb /\
    gaussian_projection_lb w mu pi nb sigma = Some (inst, v) /\
    forall j nb' inst' v', nth_error neighbors j = Some nb' ->
      gaussian_projection_lb w mu pi nb' sigma = Some (inst', v') ->
      (v <= v')%R /\ ((j < k)%nat -> (v < v')%R).
Proof.
  unfold best_response_lb, select2.
  destruct (ofinite _) as [ps|] eqn:Hps; [|discriminate].
  apply ofinite_nth in Hps as [Hlen Hps]; rewrite length_map in Hlen.
  destruct (np_min _) as [v0|e] eqn:Hmin; cbn [bind]; [|discriminate].
  destruct (np_argmin _) as [k|e] eqn:Harg; cbn [bind]; [|discriminate].
  intros H; injection H as <- <-.
  destruct (np_min_argmin _ _ _ Hmin Harg) as (Hk & Hkv & Hle & Hlt).
  rewrite length_map in Hk.
  destruct (nth_error neighbors k) as [nb|] eqn:Hnb;
    [|apply nth_error_None in Hnb; lia].
  assert (Hpk : nth_error (map (fun neighbor => gaussian_projection_lb w mu pi neighbor sigma) neighbors) k
                = Some (gaussian_projection_lb w mu pi nb sigma)) by (rewrite nth_error_map, Hnb; reflexivity).
  destruct (Hps k _ Hpk) as ([lam vk] & Hk' & Hf).
  exists k, nb; split; [exact Hnb|]; split.
  - rewrite Hf, (nth_map_of_nth_error _ _ _ _ _ Hk').
    rewrite (nth_map_of_nth_error _ _ _ _ _ Hk') in Hkv; cbn in Hkv |- *; subst v0; reflexivity.
  - intros j nb' inst' v' Hj Hf'.
    assert (Hpj : nth_error (map (fun neighbor => gaussian_projection_lb w mu pi neighbor sigma) neighbors) j
                  = Some (Some (inst', v'))) by (rewrite nth_error_map, Hj; cbn [option_map]; rewrite Hf'; reflexivity).
    destruct (Hps j _ Hpj) as (a & Ha & Ea); injection Ea as <-.
    assert (Hjl : (j < length ps)%nat) by (apply nth_error_Some; congruence).
    assert (E : nth j (map snd ps) 0%R = v')
      by (rewrite (nth_map_of_nth_error _ _ _ _ _ Ha); reflexivity).
    split.
    + rewrite <- E; apply Hle; rewrite length_map; exact Hjl.
    + intros Hjk; rewrite <- E; apply Hlt, Hjk.
Qed.

(** Witness: one neighbour, one arm. *)
Lemma best_response_lb_gaussian_min_witness :
  exists v inst,
    best_response_lb (fun _ l0 _ => l0) (fun _ x0 _ => x0) [1] [1] [1] [[0]] 1 Gaussian
      = Ok (Some (v, inst)) /\
    exists k nb, nth_error [[0]] k = Some nb /\
      gaussian_projection_lb [1] [1] [1] nb 1 = Some (inst, v) /\
      forall j nb' inst' v', nth_error [[0]] j = Some nb' ->
        gaussian_projection_lb [1] [1] [1] nb' 1 = Some (inst', v') ->
        (v <= v')%R /\ ((j < k)%nat -> (v < v')%R).
Proof.
  pose proof PRECISION_pos as HP.
  assert (Hw : Forall (fun a => 0 <= a)%R [1]%R) by (repeat constructor; lra).
  assert (HN : sumR (vmap2 (fun a c => a ^ 2 / c)%R (vmap2 Rminus [1]%R [0]%R)
                 (map (fun a => a + PRECISION)%R [1]%R)) <> 0%R).
  { cbn; assert (0 < (1 - 0) ^ 2 / (1 + PRECISION))%R
      by (unfold Rdiv; apply Rmult_lt_0_compat; [lra | apply Rinv_0_lt_compat; lra]).
    lra. }
  assert (E := gaussian_projection_lb_closed [1]%R [1]%R [1]%R [0]%R 1%R Hw R1_neq_R0 HN).
  set (lam := gauss_alt _ _ _ _) in E.
  set (val := (sumR _ / _)%R) in E.
  assert (H : best_response_lb (fun _ l0 _ => l0) (fun _ x0 _ => x0) [1] [1] [1] [[0]] 1 Gaussian
                = Ok (Some (val, lam)))
    by (unfold best_response_lb, select2; cbn [map ofinite]; rewrite E; reflexivity).
  exists val, lam; split; [exact H|].
  exact (best_response_lb_gaussian_min (fun _ l0 _ => l0) (fun _ x0 _ => x0) [1] [1] [1] [[0]] 1
           val lam H).
Defined.

(** Both best responses raise [ValueError] for a vertex without neighbours,
    and with [dist_type="Bernoulli"] they raise [TypeError] (from
    [bernoulli_projection]) for any neighbour: the Bernoulli branch never
    returns. *)
Theorem best_response_errors minimize_l minimize_b (w mu pi l0 : list R)
    (A : list (list R)) (b : list R) (sigma : R) :
  (forall dist, best_response minimize_l minimize_b w mu pi [] l0 A b sigma dist = Err ValueError /\
                best_response_lb minimize_l minimize_b w mu pi [] sigma dist = Err ValueError) /\
  (forall nb rest,
     best_response minimize_l minimize_b w mu pi (nb :: rest) l0 A b sigma Bernoulli = Err TypeError /\
     best_response_lb minimize_l minimize_b w mu pi (nb :: rest) sigma Bernoulli = Err TypeError).
Proof.
  split; [intros []; split; reflexivity | intros nb rest; split; reflexivity].
Qed.

End BestResponseFacts.

(** ** [Explorer.update] *)

Section UpdateFacts.
Local Open Scope R_scope.

Lemma set_nth_same {A} (l : list A) i v d : (i < length l)%nat -> nth i (set_nth l i v) d = v.
Proof.
  revert i; induction l as [|x l IH]; intros [|i] Hi; simpl in *; try lia; [reflexivity|].
  apply IH; lia.
Qed.

Lemma set_nth_other {A} (l : list A) i j v d : j <> i -> nth j (set_nth l i v) d = nth j l d.
Proof.
  revert i j; induction l as [|x l IH]; intros [|i] [|j] Hij; simpl; try reflexivity; try lia.
  apply IH; lia.
Qed.

Lemma sumR_app x y : sumR (x ++ y) = sumR x + sumR y.
Proof. induction x as [|a x IH]; unfold sumR in *; simpl; [lra | rewrite IH; lra]. Qed.

Lemma sumR_set_nth l i v : (i < length l)%nat -> sumR (set_nth l i v) = sumR l - nth i l 0 + v.
Proof.
  revert i; induction l as [|x l IH]; intros [|i] Hi; simpl in *; try lia; unfold sumR in *; simpl.
  - lra.
  - rewrite IH by lia; lra.
Qed.

Lemma rsequence_length {A} (l : list (result A)) ys : rsequence l = Ok ys -> length ys = length l.
Proof.
  revert ys; induction l as [|r l IH]; intros ys H; cbn in H; [injection H as <-; reflexivity|].
  destruct r as [a|e]; cbn [bind] in H; [|discriminate].
  destruct (rsequence l) as [s|e] eqn:Hs; cbn [bind] in H; [|discriminate].
  injection H as <-; simpl; rewrite (IH s eq_refl); reflexivity.
Qed.

(** The shape of a successful update. *)
Lemma update_Ok dist lo hi d st g arm reward cost st' g' :
  ExplorerUpdate.update dist lo hi d st g arm reward cost = Ok (st', g') ->
  exists k m col cost',
    nth_error (Explorer.n_pulls st) arm = Some k /\
    nth_error (Explorer.means st) arm = Some m /\
    ExplorerUpdate.column (Explorer.constraints st) arm = Ok col /\
    ExplorerUpdate.broadcast_to (length col) cost = Ok cost' /\
    ExplorerUpdate.gram_add d g arm = Ok g' /\
    Explorer.t st' = S (Explorer.t st) /\
    Explorer.n_pulls st' = set_nth (Explorer.n_pulls st) arm (k + 1) /\
    Explorer.means st' =
      (let means := set_nth (Explorer.means st) arm (m + 1 / (k + 1) * (reward - m)) in
       match dist with Bernoulli => map (clip lo hi) means | Gaussian => means end) /\
    Explorer.constraints st' =
      ExplorerUpdate.set_column (Explorer.constraints st) arm
        (vmap2 (fun c a => ((k + 1 - 1) * c + a) / (k + 1)) col cost').
Proof.
  unfold ExplorerUpdate.update.
  destruct (nth_error (Explorer.n_pulls st) arm) as [k|] eqn:Hk; [|discriminate].
  destruct (nth_error (Explorer.means st) arm) as [m|] eqn:Hm; [|discriminate].
  destruct (ExplorerUpdate.column _ arm) as [col|e] eqn:Hc; cbn [bind]; [|discriminate].
  destruct (ExplorerUpdate.broadcast_to _ cost) as [cost'|e] eqn:Hb; cbn [bind]; [|discriminate].
  destruct (ExplorerUpdate.gram_add d g arm) as [g0|e] eqn:Hg; cbn [bind]; [|discriminate].
  intros H; injection H as <- <-.
  exists k, m, col, cost'; repeat split; assumption || reflexivity.
Qed.

(** A property of the explorer preserved by every update with an
    observation satisfying [Q] holds after a sequence of such updates. *)
Lemma run_updates_ind dist lo hi d (Q : nat * R * list R -> Prop)
    (P : list (nat * R * list R) -> Explorer.state -> list (list R) -> Prop) :
  (forall h st g arm reward cost st' g', Q (arm, reward, cost) -> P h st g ->
     ExplorerUpdate.update dist lo hi d st g arm reward cost = Ok (st', g') ->
     P (h ++ [(arm, reward, cost)]) st' g') ->
  forall obs h st g st' g', Forall Q obs -> P h st g ->
  ExplorerUpdate.run_updates dist lo hi d st g obs = Ok (st', g') -> P (h ++ obs) st' g'.
Proof.
  intros Hstep obs; induction obs as [|[[arm reward] cost] obs IH]; intros h st g st' g' HQ Hp Hrun.
  - cbn in Hrun; injection Hrun as <- <-; rewrite app_nil_r; exact Hp.
  - cbn [ExplorerUpdate.run_updates] in Hrun.
    inversion HQ as [|x l Hq HQ']; subst.
    destruct (ExplorerUpdate.update dist lo hi d st g arm reward cost) as [[s1 g1]|e] eqn:Hu;
      cbn [bind fst snd] in Hrun; [|discriminate].
    replace (h ++ (arm, reward, cost) :: obs) with ((h ++ [(arm, reward, cost)]) ++ obs)
      by (rewrite <- app_assoc; reflexivity).
    apply (IH _ s1 g1); [exact HQ' | apply (Hstep h st g arm reward cost); assumption | exact Hrun].
Qed.

Lemma Forall_True_obs (obs : list (nat * R * list R)) : Forall (fun _ => True) obs.
Proof. apply Forall_forall; intros; exact I. Qed.

Lemma pulls_of_snoc i h arm reward cost :
  ExplorerUpdate.pulls_of i (h ++ [(arm, reward, cost)]) =
  (ExplorerUpdate.pulls_of i h + if (arm =? i)%nat then 1 else 0)%nat.
Proof.
  unfold ExplorerUpdate.pulls_of; rewrite filter_app, length_app; simpl.
  destruct (arm =? i)%nat; reflexivity.
Qed.

Lemma reward_sum_snoc i h arm reward cost :
  ExplorerUpdate.reward_sum i (h ++ [(arm, reward, cost)]) =
  ExplorerUpdate.reward_sum i h + if (arm =? i)%nat then reward else 0.
Proof.
  unfold ExplorerUpdate.reward_sum; rewrite map_app, sumR_app; cbn -[sumR].
  unfold sumR at 2; cbn [fold_right]; destruct (arm =? i)%nat; lra.
Qed.

Lemma sumR_repeat0 n : sumR (repeat 0 n) = 0.
Proof. induction n as [|n IH]; [reflexivity|]; unfold sumR in *; simpl; rewrite IH; lra. Qed.

Lemma sumR_map_div x c : sumR (map (fun a => a / c) x) = sumR x / c.
Proof.
  induction x as [|a x IH]; unfold sumR in *; simpl; [unfold Rdiv; ring|].
  rewrite IH; unfold Rdiv; ring.
Qed.

Lemma eyeR_entry n i j :
  (i < n)%nat -> (j < n)%nat -> nth j (nth i (ExplorerUpdate.eyeR n) []) 0 = if (i =? j)%nat then 1 else 0.
Proof.
  intros Hi Hj; unfold ExplorerUpdate.eyeR.
  rewrite (nth_map_seq (fun i => map (fun j => if (i =? j)%nat then 1 else 0) (seq 0 n))) by exact Hi.
  rewrite (nth_map_seq (fun j => if (i =? j)%nat then 1 else 0)) by exact Hj; reflexivity.
Qed.

Lemma eyeR_row_length n i : (i < n)%nat -> length (nth i (ExplorerUpdate.eyeR n) []) = n.
Proof.
  intros Hi; unfold ExplorerUpdate.eyeR.
  rewrite (nth_map_seq (fun i => map (fun j => if (i =? j)%nat then 1 else 0) (seq 0 n))) by exact Hi.
  rewrite length_map, length_seq; reflexivity.
Qed.

(** Counts, round number and Gram matrix after the updates [h]. *)
Definition count_inv (n : nat) (h : list (nat * R * list R)) (st : Explorer.state)
    (g : list (list R)) : Prop :=
  Forall (fun '(arm, _, _) => (arm < n)%nat) h /\
  Explorer.t st = length h /\
  length (Explorer.n_pulls st) = n /\
  (forall i, (i < n)%nat -> nth i (Explorer.n_pulls st) 0 = INR (ExplorerUpdate.pulls_of i h)) /\
  sumR (Explorer.n_pulls st) = INR (Explorer.t st) /\
  length g = n /\
  (forall i, (i < n)%nat -> length (nth i g []) = n) /\
  (forall i j, (i < n)%nat -> (j < n)%nat ->
     nth j (nth i g []) 0 = if (i =? j)%nat then 1 + INR (ExplorerUpdate.pulls_of i h) else 0).

Lemma count_inv_step dist lo hi n h st g arm reward cost st' g' :
  count_inv n h st g ->
  ExplorerUpdate.update dist lo hi n st g arm reward cost = Ok (st', g') ->
  count_inv n (h ++ [(arm, reward, cost)]) st' g'.
Proof.
  intros (Harms & Ht & Hlen & Hcnt & Hsum & Hgl & Hgrl & Hg) Hu.
  destruct (update_Ok _ _ _ _ _ _ _ _ _ _ _ Hu)
    as (k & m & col & cost' & Hk & Hm & Hcol & Hb & Hgram & Ht' & Hn' & _ & _).
  assert (Ha : (arm < n)%nat) by (rewrite <- Hlen; apply nth_error_Some; congruence).
  assert (Ek : k = INR (ExplorerUpdate.pulls_of arm h))
    by (rewrite <- (Hcnt arm Ha); symmetry; apply nth_error_nth, Hk).
  unfold ExplorerUpdate.gram_add in Hgram.
  rewrite (proj2 (Nat.leb_gt n arm) Ha), Hgl, Nat.eqb_refl in Hgram.
  injection Hgram as <-.
  split; [|split; [|split; [|split; [|split; [|split; [|split]]]]]].
  - apply Forall_app; split; [exact Harms | constructor; [exact Ha | constructor]].
  - rewrite Ht', Ht, length_app; simpl; lia.
  - rewrite Hn', set_nth_length; exact Hlen.
  - intros i Hi; rewrite Hn', pulls_of_snoc.
    destruct (Nat.eq_dec arm i) as [<-|Hne].
    + rewrite set_nth_same by lia; rewrite Nat.eqb_refl, plus_INR, Ek; simpl; lra.
    + rewrite set_nth_other by lia; rewrite (proj2 (Nat.eqb_neq arm i) Hne), Nat.add_0_r.
      apply Hcnt, Hi.
  - rewrite Hn', sumR_set_nth by lia; rewrite Ht', S_INR, <- Hsum.
    rewrite (nth_error_nth _ _ _ Hk); lra.
  - rewrite set_nth_length; exact Hgl.
  - intros i Hi; destruct (Nat.eq_dec arm i) as [<-|Hne].
    + rewrite set_nth_same by lia; rewrite set_nth_length; apply Hgrl, Ha.
    + rewrite set_nth_other by lia; apply Hgrl, Hi.
  - intros i j Hi Hj; rewrite pulls_of_snoc.
    destruct (Nat.eq_dec arm i) as [<-|Hne].
    + rewrite set_nth_same by lia; rewrite Nat.eqb_refl.
      destruct (Nat.eq_dec arm j) as [<-|Hnj].
      * rewrite set_nth_same by (rewrite (Hgrl arm Ha); exact Ha).
        rewrite (Hg arm arm Ha Ha), Nat.eqb_refl, plus_INR; simpl; lra.
      * rewrite set_nth_other by lia; rewrite (Hg arm j Ha Hj).
        rewrite (proj2 (Nat.eqb_neq arm j) Hnj); reflexivity.
    + rewrite set_nth_other by lia; rewrite (proj2 (Nat.eqb_neq arm i) Hne), Nat.add_0_r.
      apply Hg; assumption.
Qed.

Lemma count_inv_fresh n A_init b delta l0 sigma :
  count_inv n [] (ExplorerUpdate.fresh n A_init b delta l0 sigma) (ExplorerUpdate.eyeR n).
Proof.
  unfold count_inv, ExplorerUpdate.fresh; cbn [Explorer.t Explorer.n_pulls].
  split; [|split; [|split; [|split; [|split; [|split; [|split]]]]]].
  - constructor.
  - reflexivity.
  - apply repeat_length.
  - intros i Hi; rewrite nth_repeat; reflexivity.
  - rewrite sumR_repeat0; reflexivity.
  - unfold ExplorerUpdate.eyeR; rewrite length_map, length_seq; reflexivity.
  - intros i Hi; apply eyeR_row_length, Hi.
  - intros i j Hi Hj; rewrite eyeR_entry by assumption.
    destruct (i =? j)%nat; simpl; lra.
Qed.

(** Means after the updates [h] (Gaussian explorer). *)
Definition means_inv (n : nat) (h : list (nat * R * list R)) (st : Explorer.state) : Prop :=
  length (Explorer.means st) = n /\
  forall i, (i < n)%nat ->
    nth i (Explorer.means st) 0 * INR (ExplorerUpdate.pulls_of i h) = ExplorerUpdate.reward_sum i h /\
    (ExplorerUpdate.pulls_of i h = O -> nth i (Explorer.means st) 0 = 0).

Lemma means_inv_step lo hi n h st g arm reward cost st' g' :
  count_inv n h st g -> means_inv n h st ->
  ExplorerUpdate.update Gaussian lo hi n st g arm reward cost = Ok (st', g') ->
  means_inv n (h ++ [(arm, reward, cost)]) st'.
Proof.
  intros (Harms & Ht & Hlen & Hcnt & _) (Hml & Hm) Hu.
  destruct (update_Ok _ _ _ _ _ _ _ _ _ _ _ Hu)
    as (k & m & col & cost' & Hk & Hmk & _ & _ & _ & _ & _ & Hmeans & _).
  cbn zeta iota in Hmeans.
  assert (Ha : (arm < n)%nat) by (rewrite <- Hlen; apply nth_error_Some; congruence).
  assert (Ek : k = INR (ExplorerUpdate.pulls_of arm h))
    by (rewrite <- (Hcnt arm Ha); symmetry; apply nth_error_nth, Hk).
  assert (Em : m = nth arm (Explorer.means st) 0) by (symmetry; apply nth_error_nth, Hmk).
  split; [rewrite Hmeans, set_nth_length; exact Hml|].
  intros i Hi; rewrite Hmeans, pulls_of_snoc, reward_sum_snoc.
  destruct (Nat.eq_dec arm i) as [<-|Hne].
  - rewrite set_nth_same by lia; rewrite Nat.eqb_refl; split; [|lia].
    destruct (Hm arm Ha) as [Hs _]; rewrite <- Hs, plus_INR, <- Ek, <- Em; simpl.
    assert (0 <= k) by (rewrite Ek; apply pos_INR).
    field; lra.
  - rewrite set_nth_other by lia; rewrite (proj2 (Nat.eqb_neq arm i) Hne), Nat.add_0_r, Rplus_0_r.
    apply Hm, Hi.
Qed.

(** Bernoulli means after at least one update. *)
Lemma bernoulli_means_step lo hi d st g arm reward cost st' g' :
  lo <= hi ->
  ExplorerUpdate.update Bernoulli lo hi d st g arm reward cost = Ok (st', g') ->
  Forall (fun m => lo <= m <= hi) (Explorer.means st').
Proof.
  intros Hlh Hu.
  destruct (update_Ok _ _ _ _ _ _ _ _ _ _ _ Hu) as (k & m & _ & _ & _ & _ & _ & _ & _ & _ & _ & Hmeans & _).
  cbn zeta iota in Hmeans; rewrite Hmeans.
  apply Forall_map, Forall_forall; intros x _; unfold clip.
  split; [apply Rmin_glb; [exact Hlh | apply Rmax_l] | apply Rmin_l].
Qed.

(** Starting from [Explorer.__init__] with [n] arms (zero counts, identity
    Gram matrix, [d = n]), a successful run of updates played only arms
    below [n], the round count is the number of updates, each count is the
    number of updates of its arm, and the empirical allocation sums to 1
    once a round has been played. *)
Theorem explorer_update_counts dist lo hi n A_init b delta l0 sigma obs st g :
  ExplorerUpdate.run_updates dist lo hi n (ExplorerUpdate.fresh n A_init b delta l0 sigma)
    (ExplorerUpdate.eyeR n) obs = Ok (st, g) ->
  Forall (fun '(arm, _, _) => (arm < n)%nat) obs /\
  Explorer.t st = length obs /\
  length (Explorer.n_pulls st) = n /\
  (forall i, (i < n)%nat -> nth i (Explorer.n_pulls st) 0 = INR (ExplorerUpdate.pulls_of i obs)) /\
  (Explorer.t st <> O -> sumR (Explorer.empirical_allocation st) = 1).
Proof.
  intros Hrun.
  destruct (run_updates_ind dist lo hi n (fun _ => True) (count_inv n)
              (fun h st g arm reward cost st' g' _ Hp Hu => count_inv_step _ _ _ _ _ _ _ _ _ _ _ _ Hp Hu)
              obs [] _ _ st g (Forall_True_obs obs) (count_inv_fresh n A_init b delta l0 sigma) Hrun)
    as (Harms & Ht & Hlen & Hcnt & Hsum & _).
  split; [exact Harms|]; split; [exact Ht|]; split; [exact Hlen|]; split; [exact Hcnt|].
  intros Ht0; unfold Explorer.empirical_allocation; rewrite sumR_map_div, Hsum.
  field; apply not_0_INR; exact Ht0.
Qed.

Lemma explorer_update_counts_witness :
  exists st g,
    ExplorerUpdate.run_updates Gaussian (-1) 10 2 (ExplorerUpdate.fresh 2 [[1; 1]] [1] (/ 10) [1] 1)
      (ExplorerUpdate.eyeR 2) [(0%nat, 1%R, [1%R]); (1%nat, 2%R, [0%R]); (0%nat, 3%R, [1%R])] = Ok (st, g) /\
    Forall (fun '(arm, _, _) => (arm < 2)%nat) [(0%nat, 1%R, [1%R]); (1%nat, 2%R, [0%R]); (0%nat, 3%R, [1%R])] /\
    Explorer.t st = 3%nat /\
    length (Explorer.n_pulls st) = 2%nat /\
    (forall i, (i < 2)%nat -> nth i (Explorer.n_pulls st) 0 =
       INR (ExplorerUpdate.pulls_of i [(0%nat, 1%R, [1%R]); (1%nat, 2%R, [0%R]); (0%nat, 3%R, [1%R])])) /\
    (Explorer.t st <> O -> sumR (Explorer.empirical_allocation st) = 1).
Proof.
  eexists; eexists; split; [reflexivity|].
  eapply (explorer_update_counts Gaussian (-1) 10 2 [[1; 1]] [1] (/ 10) [1] 1); reflexivity.
Defined.

(** Starting from the identity Gram matrix, the Gram matrix after a
    successful run of updates is diagonal, with [1 +] the number of updates
    of arm [i] at position [(i, i)]. *)
Theorem explorer_update_gram dist lo hi n A_init b delta l0 sigma obs st g :
  ExplorerUpdate.run_updates dist lo hi n (ExplorerUpdate.fresh n A_init b delta l0 sigma)
    (ExplorerUpdate.eyeR n) obs = Ok (st, g) ->
  length g = n /\
  (forall i, (i < n)%nat -> length (nth i g []) = n) /\
  (forall i j, (i < n)%nat -> (j < n)%nat ->
     nth j (nth i g []) 0 = if (i =? j)%nat then 1 + INR (ExplorerUpdate.pulls_of i obs) else 0).
Proof.
  intros Hrun.
  destruct (run_updates_ind dist lo hi n (fun _ => True) (count_inv n)
              (fun h st g arm reward cost st' g' _ Hp Hu => count_inv_step _ _ _ _ _ _ _ _ _ _ _ _ Hp Hu)
              obs [] _ _ st g (Forall_True_obs obs) (count_inv_fresh n A_init b delta l0 sigma) Hrun)
    as (_ & _ & _ & _ & _ & Hgl & Hgrl & Hg).
  split; [exact Hgl|]; split; [exact Hgrl | exact Hg].
Qed.

Lemma explorer_update_gram_witness :
  exists st g,
    ExplorerUpdate.run_updates Bernoulli (/ 10000) (1 - / 10000) 2
      (ExplorerUpdate.fresh 2 [[1; 1]] [1] (/ 10) [1] 1)
      (ExplorerUpdate.eyeR 2) [(0%nat, 1%R, [1%R]); (0%nat, 0%R, [0%R])] = Ok (st, g) /\
    length g = 2%nat /\
    (forall i, (i < 2)%nat -> length (nth i g []) = 2%nat) /\
    (forall i j, (i < 2)%nat -> (j < 2)%nat ->
       nth j (nth i g []) 0 = if (i =? j)%nat then
         1 + INR (ExplorerUpdate.pulls_of i [(0%nat, 1%R, [1%R]); (0%nat, 0%R, [0%R])]) else 0).
Proof.
  eexists; eexists; split; [reflexivity|].
  eapply (explorer_update_gram Bernoulli (/ 10000) (1 - / 10000) 2 [[1; 1]] [1] (/ 10) [1] 1);
    reflexivity.
Defined.

(** For the Gaussian explorer, after a successful run of updates from
    [Explorer.__init__], the mean of each arm is the average of its rewards,
    and 0 while the arm has not been played. *)
Theorem explorer_update_means_average lo hi n A_init b delta l0 sigma obs st g :
  ExplorerUpdate.run_updates Gaussian lo hi n (ExplorerUpdate.fresh n A_init b delta l0 sigma)
    (ExplorerUpdate.eyeR n) obs = Ok (st, g) ->
  length (Explorer.means st) = n /\
  forall i, (i < n)%nat ->
    nth i (Explorer.means st) 0 =
      if (ExplorerUpdate.pulls_of i obs =? 0)%nat then 0
      else ExplorerUpdate.reward_sum i obs / INR (ExplorerUpdate.pulls_of i obs).
Proof.
  intros Hrun.
  assert (Hm0 : means_inv n [] (ExplorerUpdate.fresh n A_init b delta l0 sigma)).
  { split; [apply repeat_length|]; intros i Hi; cbn [Explorer.means ExplorerUpdate.fresh].
    rewrite nth_repeat; split; [|reflexivity].
    unfold ExplorerUpdate.reward_sum, ExplorerUpdate.pulls_of; simpl; lra. }
  destruct (run_updates_ind Gaussian lo hi n (fun _ => True)
              (fun h st g => count_inv n h st g /\ means_inv n h st)
              (fun h st g arm reward cost st' g' _ Hp Hu =>
                 conj (count_inv_step _ _ _ _ _ _ _ _ _ _ _ _ (proj1 Hp) Hu)
                      (means_inv_step _ _ _ _ _ _ _ _ _ _ _ (proj1 Hp) (proj2 Hp) Hu))
              obs [] _ _ st g (Forall_True_obs obs)
              (conj (count_inv_fresh n A_init b delta l0 sigma) Hm0) Hrun)
    as [_ [Hml Hm]].
  cbn [app] in Hm.
  split; [exact Hml|]; intros i Hi; destruct (Hm i Hi) as [Hs H0].
  destruct (ExplorerUpdate.pulls_of i obs =? 0)%nat eqn:Hp.
  - apply H0, Nat.eqb_eq, Hp.
  - apply Nat.eqb_neq in Hp; rewrite <- Hs; field; apply not_0_INR, Hp.
Qed.

Lemma explorer_update_means_average_witness :
  exists st g,
    ExplorerUpdate.run_updates Gaussian (-1) 10 2 (ExplorerUpdate.fresh 2 [[1; 1]] [1] (/ 10) [1] 1)
      (ExplorerUpdate.eyeR 2) [(0%nat, 1%R, [1%R]); (0%nat, 3%R, [1%R])] = Ok (st, g) /\
    length (Explorer.means st) = 2%nat /\
    forall i, (i < 2)%nat ->
      nth i (Explorer.means st) 0 =
        if (ExplorerUpdate.pulls_of i [(0%nat, 1%R, [1%R]); (0%nat, 3%R, [1%R])] =? 0)%nat then 0
        else ExplorerUpdate.reward_sum i [(0%nat, 1%R, [1%R]); (0%nat, 3%R, [1%R])] /
             INR (ExplorerUpdate.pulls_of i [(0%nat, 1%R, [1%R]); (0%nat, 3%R, [1%R])]).
Proof.
  eexists; eexists; split; [reflexivity|].
  eapply (explorer_update_means_average (-1) 10 2 [[1; 1]] [1] (/ 10) [1] 1); reflexivity.
Defined.

(** For the Bernoulli explorer with [lower <= upper], every mean lies in
    [[lower, upper]] after any successful update. *)
Theorem explorer_update_bernoulli_clipped lo hi d st g obs st' g' :
  lo <= hi -> obs <> [] ->
  ExplorerUpdate.run_updates Bernoulli lo hi d st g obs = Ok (st', g') ->
  Forall (fun m => lo <= m <= hi) (Explorer.means st').
Proof.
  intros Hlh Hne Hrun; destruct obs as [|[[arm reward] cost] obs]; [contradiction|].
  cbn [ExplorerUpdate.run_updates] in Hrun.
  destruct (ExplorerUpdate.update Bernoulli lo hi d st g arm reward cost) as [[s1 g1]|e] eqn:Hu;
    cbn [bind fst snd] in Hrun; [|discriminate].
  apply (run_updates_ind Bernoulli lo hi d (fun _ => True)
           (fun _ st _ => Forall (fun m => lo <= m <= hi) (Explorer.means st))
           (fun h st g arm reward cost st' g' _ _ Hu => bernoulli_means_step _ _ _ _ _ _ _ _ _ _ Hlh Hu)
           obs [] s1 g1 st' g' (Forall_True_obs obs) (bernoulli_means_step _ _ _ _ _ _ _ _ _ _ Hlh Hu)
           Hrun).
Qed.

Lemma explorer_update_bernoulli_clipped_witness :
  exists st' g',
    / 10000 <= 1 - / 10000 /\ [(0%nat, 1%R, [1%R])] <> [] /\
    ExplorerUpdate.run_updates Bernoulli (/ 10000) (1 - / 10000) 2
      (ExplorerUpdate.fresh 2 [[1; 1]] [1] (/ 10) [1] 1) (ExplorerUpdate.eyeR 2)
      [(0%nat, 1%R, [1%R])] = Ok (st', g') /\
    Forall (fun m => / 10000 <= m <= 1 - / 10000) (Explorer.means st').
Proof.
  assert (Hlh : / 10000 <= 1 - / 10000) by lra.
  assert (Hne : [(0%nat, 1%R, [1%R])] <> []) by discriminate.
  eexists; eexists; split; [exact Hlh|]; split; [exact Hne|]; split; [reflexivity|].
  eapply (explorer_update_bernoulli_clipped _ _ 2 (ExplorerUpdate.fresh 2 [[1; 1]] [1] (/ 10) [1] 1)
            (ExplorerUpdate.eyeR 2) _ _ _ Hlh Hne); reflexivity.
Defined.

End UpdateFacts.

(** ** [Explorer.tracking] *)

Section TrackingFacts.
Local Open Scope R_scope.

Lemma sumR_nonneg x : Forall (fun a => 0 <= a) x -> 0 <= sumR x.
Proof.
  induction 1 as [|a x Ha _ IH]; unfold sumR in *; simpl; lra.
Qed.

Lemma sumR_pos x : Forall (fun a => 0 < a) x -> x <> [] -> 0 < sumR x.
Proof.
  intros Hx Hne; destruct x as [|a x]; [contradiction|].
  inversion Hx as [|? ? Ha Hr]; subst.
  assert (0 <= sumR x) by (apply sumR_nonneg; eapply Forall_impl; [|exact Hr]; simpl; intros; lra).
  unfold sumR in *; simpl; lra.
Qed.

Lemma sumR_vmap2_plus x y : length x = length y -> sumR (vmap2 Rplus x y) = sumR x + sumR y.
Proof.
  revert y; induction x as [|a x IH]; intros [|c y] H; simpl in H; try discriminate; [unfold sumR; simpl; lra|].
  rewrite vmap2_cons; unfold sumR in *; simpl; rewrite IH by lia; lra.
Qed.

Lemma osequence_map_odiv l c : c <> 0 -> osequence (map (fun a => odiv a c) l) = Some (map (fun a => a / c) l).
Proof.
  intros Hc; induction l as [|a l IH]; [reflexivity|].
  cbn [map osequence]; rewrite (odiv_nz a c Hc), IH; reflexivity.
Qed.

(** Cumulative tracking ([d_tracking] off): with at least one arm and a
    nonnegative allocation of the right length, the call returns an arm
    below the number of arms, every cumulative weight grows strictly and
    their total grows by exactly 1, and the arm is the first index of the
    minimum of [n_pulls - cumulative_weights]. *)
Theorem explorer_tracking_cumulative n_arms st cw alloc :
  (1 <= n_arms)%nat -> alloc <> [] -> Forall (fun a => 0 <= a) alloc ->
  length cw = length alloc -> length (Explorer.n_pulls st) = length alloc ->
  exists k cw',
    ExplorerUpdate.tracking false n_arms st cw alloc = Ok (Some (k, cw')) /\
    length cw' = length alloc /\
    sumR cw' = sumR cw + 1 /\
    (forall i, (i < length alloc)%nat -> nth i cw 0 < nth i cw' 0) /\
    (k < length alloc)%nat /\
    (forall j, (j < length alloc)%nat ->
       nth k (Explorer.n_pulls st) 0 - nth k cw' 0 <= nth j (Explorer.n_pulls st) 0 - nth j cw' 0) /\
    (forall j, (j < k)%nat ->
       nth k (Explorer.n_pulls st) 0 - nth k cw' 0 < nth j (Explorer.n_pulls st) 0 - nth j cw' 0).
Proof.
  intros Hn Hne Ha Hcw Hnp; unfold ExplorerUpdate.tracking.
  assert (HT : 0 < INR (Explorer.t st) + INR n_arms ^ 2).
  { assert (1 <= INR n_arms) by (replace 1 with (INR 1) by reflexivity; apply le_INR; exact Hn).
    pose proof (pos_INR (Explorer.t st)); nra. }
  assert (Hsq : 0 < 2 * sqrt (INR (Explorer.t st) + INR n_arms ^ 2))
    by (pose proof (sqrt_lt_R0 _ HT); lra).
  rewrite (odiv_nz 1 (2 * sqrt (INR (Explorer.t st) + INR n_arms ^ 2)) ltac:(lra)).
  set (eps := 1 / (2 * sqrt (INR (Explorer.t st) + INR n_arms ^ 2))).
  assert (He : 0 < eps) by (unfold eps; apply Rdiv_lt_0_compat; lra).
  set (ea := map (fun a => a + eps) alloc).
  assert (Hea : Forall (fun a => 0 < a) ea)
    by (unfold ea; apply Forall_map; eapply Forall_impl; [|exact Ha]; simpl; intros; lra).
  assert (HS : 0 < sumR ea)
    by (apply sumR_pos; [exact Hea | unfold ea; destruct alloc; [contradiction | discriminate]]).
  rewrite (osequence_map_odiv ea (sumR ea) ltac:(lra)).
  set (p := map (fun a => a / sumR ea) ea).
  assert (Hpl : length p = length alloc) by (unfold p, ea; rewrite !length_map; reflexivity).
  assert (Hpp : Forall (fun a => 0 < a) p)
    by (unfold p; apply Forall_map; eapply Forall_impl; [|exact Hea]; simpl; intros;
        apply Rdiv_lt_0_compat; assumption).
  set (cw' := vmap2 Rplus cw p).
  assert (Hcl : length cw' = length alloc) by (unfold cw'; rewrite vmap2_length; lia).
  set (diff := vmap2 Rminus (Explorer.n_pulls st) cw').
  assert (Hdl : length diff = length alloc) by (unfold diff; rewrite vmap2_length; lia).
  assert (Hdne : diff <> []) by (destruct diff; [destruct alloc; [contradiction | discriminate Hdl] | discriminate]).
  destruct (np_argmin_ok diff Hdne) as [k Hk]; destruct (np_min_ok diff Hdne) as [v Hv].
  destruct (np_min_argmin diff v k Hv Hk) as (Hkl & Hkv & Hle & Hlt).
  rewrite Hk; cbn [bind].
  assert (Hdn : forall j, (j < length alloc)%nat ->
            nth j diff 0 = nth j (Explorer.n_pulls st) 0 - nth j cw' 0)
    by (intros j Hj; unfold diff; rewrite vmap2_nth by lia; reflexivity).
  exists k, cw'; split; [reflexivity|]; split; [exact Hcl|]; split; [|split; [|split; [lia|split]]].
  - unfold cw'; rewrite sumR_vmap2_plus by lia; unfold p; rewrite sumR_map_div; field; lra.
  - intros i Hi; unfold cw'; rewrite vmap2_nth by lia.
    pose proof (proj1 (Forall_nth (fun a => 0 < a) p) Hpp i 0 ltac:(lia)); lra.
  - intros j Hj; rewrite <- !Hdn by lia; rewrite Hkv; apply Hle; lia.
  - intros j Hj; rewrite <- !Hdn by lia; rewrite Hkv; apply Hlt; exact Hj.
Qed.

Lemma explorer_tracking_cumulative_witness :
  (1 <= 2)%nat /\ [(/ 4)%R; (3 / 4)%R] <> [] /\ Forall (fun a => 0 <= a) [(/ 4)%R; (3 / 4)%R] /\
  exists k cw',
    ExplorerUpdate.tracking false 2 (ExplorerUpdate.fresh 2 [[1; 1]] [1] (/ 10) [1] 1)
      [0%R; 0%R] [(/ 4)%R; (3 / 4)%R] = Ok (Some (k, cw')) /\
    length cw' = length [(/ 4)%R; (3 / 4)%R] /\
    sumR cw' = sumR [0%R; 0%R] + 1 /\
    (forall i, (i < length [(/ 4)%R; (3 / 4)%R])%nat -> nth i [0%R; 0%R] 0 < nth i cw' 0) /\
    (k < length [(/ 4)%R; (3 / 4)%R])%nat /\
    (forall j, (j < length [(/ 4)%R; (3 / 4)%R])%nat ->
       nth k (Explorer.n_pulls (ExplorerUpdate.fresh 2 [[1; 1]] [1] (/ 10) [1] 1)) 0 - nth k cw' 0 <=
       nth j (Explorer.n_pulls (ExplorerUpdate.fresh 2 [[1; 1]] [1] (/ 10) [1] 1)) 0 - nth j cw' 0) /\
    (forall j, (j < k)%nat ->
       nth k (Explorer.n_pulls (ExplorerUpdate.fresh 2 [[1; 1]] [1] (/ 10) [1] 1)) 0 - nth k cw' 0 <
       nth j (Explorer.n_pulls (ExplorerUpdate.fresh 2 [[1; 1]] [1] (/ 10) [1] 1)) 0 - nth j cw' 0).
Proof.
  assert (Hn : (1 <= 2)%nat) by lia.
  assert (Hne : [(/ 4)%R; (3 / 4)%R] <> []) by discriminate.
  assert (Ha : Forall (fun a => 0 <= a) [(/ 4)%R; (3 / 4)%R])
    by (repeat constructor; lra).
  split; [exact Hn|]; split; [exact Hne|]; split; [exact Ha|].
  exact (explorer_tracking_cumulative 2 (ExplorerUpdate.fresh 2 [[1; 1]] [1] (/ 10) [1] 1)
           [0%R; 0%R] [(/ 4)%R; (3 / 4)%R] Hn Hne Ha eq_refl eq_refl).
Defined.

End TrackingFacts.

(** ** The experiment loop: warm-up and stopping *)

Section HarnessMore.
Variable Policy : Type.
Variables n_arms ini_phase : nat.
Variable lp_solve : nat -> option Policy.
Variable adaptive_step : nat -> Policy -> nat * bool.

Local Abbreviation loop := (Harness.loop Policy n_arms ini_phase lp_solve adaptive_step).



Lemma loop_stops_at_first_done fuel : forall t log ds,
  loop fuel t log = Ok ds ->
  (length ds <= fuel)%nat /\
  forall i a dn p, nth_error ds i = Some (a, dn, p) -> (S i < length ds)%nat -> dn = false.
Proof.
  induction fuel as [|fuel IH]; intros t log ds H.
  - cbn in H; injection H as <-; split; [simpl; lia|]; intros i a dn p Hi; rewrite nth_error_nil in Hi; discriminate.
  - cbn [Harness.loop] in H.
    destruct (match Harness.act Policy n_arms ini_phase lp_solve adaptive_step t with
              | Some d => Ok d
              | None => match Harness.last_opt log with Some d => Ok d | None => Err IndexError end
              end) as [[[a0 dn0] p0]|e]; cbn [bind] in H; [|discriminate].
    destruct dn0; cbv beta iota in H.
    + injection H as <-; split; [simpl; lia|]; intros i a dn p Hi Hl; simpl in Hl; lia.
    + destruct (loop fuel (S t) _) as [rest|e] eqn:Hr; cbn [bind] in H; [|discriminate].
      injection H as <-; destruct (IH _ _ _ Hr) as [Hlen Hdone].
      split; [simpl; lia|].
      intros [|i] a dn p Hi Hl; cbn [nth_error] in Hi.
      * injection Hi as _ <- _; reflexivity.
      * apply (Hdone i a dn p Hi); simpl in Hl; lia.
Qed.

End HarnessMore.


Definition step_stop_at_5 (t : nat) (_ : unit) : nat * bool := (t mod 3, (5 <=? t)%nat).


(** A run of the experiment loop ends with the first decision whose
    [done] flag is set: every earlier decision has [done = false], and
    there are at most [100000] decisions. *)
Theorem run_exploration_experiment_stops (Policy : Type) (n_arms ini_phase : nat)
    (lp_solve : nat -> option Policy) (adaptive_step : nat -> Policy -> nat * bool) ds :
  Harness.run_exploration_experiment Policy n_arms ini_phase lp_solve adaptive_step = Ok ds ->
  (length ds <= 10 ^ 5)%nat /\
  forall i a dn p, nth_error ds i = Some (a, dn, p) -> (S i < length ds)%nat -> dn = false.
Proof.
  unfold Harness.run_exploration_experiment; apply loop_stops_at_first_done.
Qed.

Lemma run_exploration_experiment_stops_witness :
  exists ds,
    Harness.run_exploration_experiment unit 3 2 lp_fails_at_3 step_stop_at_5 = Ok ds /\
    (length ds <= 10 ^ 5)%nat /\
    forall i a dn p, nth_error ds i = Some (a, dn, p) -> (S i < length ds)%nat -> dn = false.
Proof.
  eexists; split; [vm_compute; reflexivity|].
  apply (run_exploration_experiment_stops unit 3 2 lp_fails_at_3 step_stop_at_5).
  vm_compute; reflexivity.
Defined.
